(** * A Wordle solver: feedback, pruning and guess selection

    Shallow embedding of [wordle.py] and proofs of the properties its
    specification states about it.

    Python values are modelled as follows.
    - A [str] is a [list ascii]; a one-character string is an [ascii].
      Slices [s[:i]] and [s[i:]] are [take i s] and [drop i s], which agree
      with Python for every index [i >= 0], also out of range.
      Indexing [s[i]] raises [IndexError] out of range.
    - The feedback values are the module constants [NOWHERE], [ELSEWHERE] and
      [HERE], the characters n, e and h; a feedback is a list of characters,
      whether it comes from [give_feedback] (a list of one-character strings)
      or from the keyboard (a string).
    - Python integers are unbounded: [nat].
    - A call either returns a value, raises an exception, or (in the model
      only) runs out of the fuel that bounds the depth of its recursion.
      The interpreter's own limit on the depth of recursion is not modelled.
    - The progress bar [tqdm] iterates over its argument in order and is
      left out; the message of [guess_greedy] is kept as the two integers
      it formats. *)

From Stdlib Require Import Ascii String.
From stdpp Require Import base decidable option list numbers strings gmap.

Local Open Scope char_scope.
#[local] Set Warnings "-clear-no-such-hyp".

(** * The program *)

(** ** Outcomes of a call *)

Inductive exn : Set :=
  | IndexError
  | AssertionError
  | ZeroDivisionError
  | ValueError.

Inductive result (A : Type) : Type :=
  | Ok (a : A)
  | Raise (e : exn)
  | OutOfFuel.

Arguments Ok {A} a.
Arguments Raise {A} e.
Arguments OutOfFuel {A}.

(** Sequencing: the first failure ends the call. *)
Definition bind {A B : Type} (r : result A) (k : A → result B) : result B :=
  match r with
  | Ok a => k a
  | Raise e => Raise e
  | OutOfFuel => OutOfFuel
  end.

Notation "x <- r ;; k" := (bind r (λ x, k))
  (at level 100, r at next level, right associativity,
   format "'[v' x  <-  r  ;;  '/' k ']'").

#[global] Instance exn_eq_dec : EqDecision exn.
Proof. solve_decision. Defined.

#[global] Instance result_eq_dec `{EqDecision A} : EqDecision (result A).
Proof. solve_decision. Defined.

(** ** Strings and feedback values *)

(** A string literal as a Python [str]. *)
Definition str (s : string) : list ascii := list_ascii_of_string s.

Definition NOWHERE : ascii := "n".
Definition ELSEWHERE : ascii := "e".
Definition HERE : ascii := "h".

(** [s[i]]. *)
Definition index {A : Type} (s : list A) (i : nat) : result A :=
  match s !! i with
  | Some x => Ok x
  | None => Raise IndexError
  end.

(** [def cut(s, i): return s[:i] + s[i+1:]] *)
Definition cut {A : Type} (s : list A) (i : nat) : list A :=
  take i s ++ drop (S i) s.
Arguments cut : simpl never.

(** ** [give_feedback] *)

Section give_feedback_body.
(** The recursive call, and the arguments of the current call. *)
Variable give_feedback : list ascii → list ascii → result (list ascii).
Variables word guess : list ascii.

(** [for i, (wl, gl) in enumerate(zip(word, guess))], from index [i] with
    [pairs] the pairs still to visit and [out] the list built so far. *)
Fixpoint give_feedback_loop (i : nat) (pairs : list (ascii * ascii))
    (out : list ascii) : result (list ascii) :=
  match pairs with
  | [] => Ok out
  | (wl, gl) :: pairs =>
      if decide (gl = wl) then
        rest <- give_feedback (cut word i) (cut guess i) ;;
        Ok (take i rest ++ [HERE] ++ drop i rest)
      else if decide (gl ∈ word) then
        give_feedback_loop (S i) pairs (out ++ [ELSEWHERE])
      else
        give_feedback_loop (S i) pairs (out ++ [NOWHERE])
  end.
End give_feedback_body.

Fixpoint give_feedback_fuel (fuel : nat) (word guess : list ascii)
    : result (list ascii) :=
  match fuel with
  | 0 => OutOfFuel
  | S fuel =>
      give_feedback_loop (give_feedback_fuel fuel) word guess
        0 (zip word guess) []
  end.

(** The recursion removes one position of the guess at each call. *)
Definition give_feedback (word guess : list ascii) : result (list ascii) :=
  give_feedback_fuel (S (length guess)) word guess.

(** ** [prune] *)

(** A list comprehension [[w for w in words if cond(w)]] whose condition can
    raise: the words are tested in order and the first exception ends it. *)
Fixpoint filter_result {A : Type} (cond : A → result bool) (words : list A)
    : result (list A) :=
  match words with
  | [] => Ok []
  | w :: words =>
      b <- cond w ;;
      rest <- filter_result cond words ;;
      Ok (if b then w :: rest else rest)
  end.

Section prune_body.
(** The recursive call, and the arguments of the current call. *)
Variable prune :
  list (list ascii) → list ascii → list ascii → result (list (list ascii)).
Variables guess feedback : list ascii.

(** The second loop, entered when the first found no [HERE]:
    [for i, (letter, result) in enumerate(zip(guess, feedback))], which
    rebinds [words] as it goes. *)
Fixpoint prune_filter_loop (i : nat) (pairs : list (ascii * ascii))
    (words : list (list ascii)) : result (list (list ascii)) :=
  match pairs with
  | [] => Ok words
  | (letter, result) :: pairs =>
      if decide (result = HERE) then Raise AssertionError else
      words <- (if decide (result = NOWHERE)
               then Ok (filter (λ w, letter ∉ w) words)
               else Ok words) ;;
      words <- (if decide (result = ELSEWHERE)
               then filter_result (λ w,
                      if decide (letter ∈ w)
                      then (c <- index w i ;; Ok (bool_decide (c ≠ letter)))
                      else Ok false) words
               else Ok words) ;;
      prune_filter_loop (S i) pairs words
  end.

(** The first loop, which returns at the first [HERE] of the feedback and
    falls through to the second loop when there is none. *)
Fixpoint prune_here_loop (words : list (list ascii)) (i : nat)
    (pairs : list (ascii * ascii)) : result (list (list ascii)) :=
  match pairs with
  | [] => prune_filter_loop 0 (zip guess feedback) words
  | (letter, result) :: pairs =>
      if decide (result = HERE) then
        consistent <-
          filter_result (λ w, c <- index w i ;; Ok (bool_decide (c = letter)))
            words ;;
        let reduced := (λ w, cut w i) <$> consistent in
        pruned <- prune reduced (cut guess i) (cut feedback i) ;;
        let restored := (λ w, take i w ++ [letter] ++ drop i w) <$> pruned in
        Ok restored
      else prune_here_loop words (S i) pairs
  end.
End prune_body.

Fixpoint prune_fuel (fuel : nat) (words : list (list ascii))
    (guess feedback : list ascii) : result (list (list ascii)) :=
  match fuel with
  | 0 => OutOfFuel
  | S fuel =>
      prune_here_loop (prune_fuel fuel) guess feedback
        words 0 (zip guess feedback)
  end.

(** The recursion removes one position of the guess at each call. *)
Definition prune (words : list (list ascii)) (guess feedback : list ascii)
    : result (list (list ascii)) :=
  prune_fuel (S (length guess)) words guess feedback.

(** ** [guess_greedy] *)

(** The message [f"expected size after pruning: {minval/N:.1f}."], kept as
    the two integers whose quotient it prints. *)
Record message : Set := expected_size { msg_minval : nat; msg_N : nat }.

#[global] Instance message_eq_dec : EqDecision message.
Proof. solve_decision. Defined.

(** [minval/N], which raises on a zero divisor. *)
Definition format_message (minval N : nat) : result message :=
  if decide (N = 0) then Raise ZeroDivisionError
  else Ok (expected_size minval N).

Section guess_greedy_body.
Variable words : list (list ascii).

(** [for w in words], with the sum [s] so far; [break] leaves the loop
    with the sum reached. *)
Fixpoint score_loop (guess : list ascii) (minval : nat)
    (ws : list (list ascii)) (s : nat) : result nat :=
  match ws with
  | [] => Ok s
  | w :: ws =>
      feedback <- give_feedback w guess ;;
      pruned <- prune words guess feedback ;;
      let s := s + length pruned in
      if decide (minval < s) then Ok s
      else score_loop guess minval ws s
  end.

(** [for guess in tqdm(guesses)], with the running [minval] and [argmin];
    [tqdm] yields the guesses in order. *)
Fixpoint guess_loop (guesses : list (list ascii)) (minval : nat)
    (argmin : option (list ascii)) : result (nat * option (list ascii)) :=
  match guesses with
  | [] => Ok (minval, argmin)
  | guess :: guesses =>
      s <- score_loop guess minval words 0 ;;
      if decide (s < minval) then guess_loop guesses s (Some guess)
      else guess_loop guesses minval argmin
  end.
End guess_greedy_body.

Definition guess_greedy (words guesses : list (list ascii))
    : result (option (list ascii) * message) :=
  let N := length words in
  let minval := N * N in
  let argmin := None in
  best <- guess_loop words guesses minval argmin ;;
  let '(minval, argmin) := best in
  message <- format_message minval N ;;
  Ok (argmin, message).

(** ** The initial guess of [loop] *)

(** [set(w)]; the string [''.join(set(w))] is [elements (set w)], the
    letters of the set in an order that the proofs do not depend on. *)
Definition set (w : list ascii) : gset ascii := list_to_set w.

(** [Counter(s)]: a letter that is not a key counts zero. *)
Definition Counter (s : list ascii) : gmap ascii nat :=
  foldl (λ m c, <[c := S (m !!! c)]> m) ∅ s.

Definition letter_counts (words : list (list ascii)) : gmap ascii nat :=
  Counter (mjoin ((λ w, elements (set w)) <$> words)).

Definition coverage (words : list (list ascii)) (word : list ascii) : nat :=
  sum_list_with (λ l, letter_counts words !!! l) (elements (set word)).

(** [max(iterable, key=key)]: the first item whose key is the largest;
    [ValueError] on an empty iterable. *)
Fixpoint py_max_loop {A : Type} (key : A → nat) (best : A) (items : list A)
    : A :=
  match items with
  | [] => best
  | x :: items =>
      if decide (key best < key x) then py_max_loop key x items
      else py_max_loop key best items
  end.

Definition py_max {A : Type} (items : list A) (key : A → nat) : result A :=
  match items with
  | [] => Raise ValueError
  | x :: items => Ok (py_max_loop key x items)
  end.

(** [g = max(words, key=coverage)], the first lines of [loop]. *)
Definition initial_guess (words : list (list ascii)) : result (list ascii) :=
  py_max words (coverage words).

(** ** Programs that print and read

    [loop], [main] and [manual_feedback] print on the standard output and
    read the standard input.  The world they run in is the list of lines
    still to be read and the list of what was printed so far, one
    [printed] per call of [print]; a program maps a world to the world it
    leaves and to how it ended. *)

(** The second line of a printed guess: the constant
    ["heuristic initial guess."], or the message of the guesser. *)
Inductive guess_message : Set :=
  | heuristic_initial_guess
  | guesser_message (msg : message).

Inductive printed : Set :=
  (** [print(f"guess: {g}\n{msg}")], where [g] can be [None] *)
  | guess_line (g : option (list ascii)) (msg : guess_message)
  (** the prompt of [input], ["enter feedback code: ..."] *)
  | enter_feedback_code
  (** [print(f"solution after {i+1} guesses:", words[0])] *)
  | solution_line (guesses : nat) (w : list ascii)
  (** [print(f"after pruning, {len(words)} possibilities:")] and
      [print(words)] *)
  | possibilities_lines (n : nat) (words : list (list ascii))
  (** [print(f"giving up after {N} tries. possibilities:")] and
      [print(words)] *)
  | giving_up_lines (N : nat) (words : list (list ascii)).

Record world : Set := World {
  stdin : list (list ascii);
  stdout : list printed
}.

(** What ends a program other than returning. *)
Inductive raised : Set :=
  (** an exception of the functions above, or of [max] *)
  | Exn (e : exn)
  (** [ValueError("All possibilities eliminated!")] *)
  | AllPossibilitiesEliminated
  (** iterating over the guess [None], in [zip] *)
  | TypeError
  (** [input()] at the end of the input *)
  | EOFError.

Inductive ending (A : Type) : Type :=
  | Returns (a : A)
  | Raises (e : raised)
  | Stuck.

Arguments Returns {A} a.
Arguments Raises {A} e.
Arguments Stuck {A}.

Definition prog (A : Type) : Type := world → world * ending A.

Definition ret {A : Type} (a : A) : prog A := λ w, (w, Returns a).

Definition raise {A : Type} (e : raised) : prog A := λ w, (w, Raises e).

Definition then_ {A B : Type} (p : prog A) (k : A → prog B) : prog B :=
  λ w,
    match p w with
    | (w', Returns a) => k a w'
    | (w', Raises e) => (w', Raises e)
    | (w', Stuck) => (w', Stuck)
    end.

Notation "x <~ p ;; k" := (then_ p (λ x, k))
  (at level 100, p at next level, right associativity,
   format "'[v' x  <~  p  ;;  '/' k ']'").

(** A call of one of the functions above. *)
Definition call {A : Type} (r : result A) : prog A :=
  match r with
  | Ok a => ret a
  | Raise e => raise (Exn e)
  | OutOfFuel => λ w, (w, Stuck)
  end.

Definition print (x : printed) : prog unit :=
  λ w, (World (stdin w) (stdout w ++ [x]), Returns tt).

(** [input(prompt)]: the prompt is printed and a line is read. *)
Definition input (prompt : printed) : prog (list ascii) :=
  _ <~ print prompt ;;
  λ w,
    match stdin w with
    | [] => (w, Raises EOFError)
    | line :: lines => (World lines (stdout w), Returns line)
    end.

(** ** [manual_feedback] *)

Definition manual_feedback (guess : option (list ascii)) : prog (list ascii) :=
  input enter_feedback_code.

(** ** [loop] *)

(** [prune(words, g, f)] where [g] comes from the guesser and can be
    [None], which [zip] does not iterate over. *)
Definition prune_guess (words : list (list ascii)) (g : option (list ascii))
    (f : list ascii) : prog (list (list ascii)) :=
  match g with
  | Some g => call (prune words g f)
  | None => raise TypeError
  end.

Section loop_body.
(** The global [ALL_WORDS], the lines of the dictionary. *)
Variable ALL_WORDS : list (list ascii).
Variable guesser :
  list (list ascii) → list (list ascii) →
  result (option (list ascii) * message).
Variable feedbacker : option (list ascii) → prog (list ascii).
Variable hard : bool.

(** [for i in range(N)], with [rounds] iterations to go, and the two
    prints that follow the loop. *)
Fixpoint loop_rounds (N rounds i : nat) (words : list (list ascii))
    (g : option (list ascii)) (msg : guess_message) : prog unit :=
  match rounds with
  | 0 => print (giving_up_lines N words)
  | S rounds =>
      _ <~ print (guess_line g msg) ;;
      f <~ feedbacker g ;;
      words <~ prune_guess words g f ;;
      if decide (length words = 0) then raise AllPossibilitiesEliminated
      else if decide (length words = 1) then
        w <~ call (index words 0) ;;
        print (solution_line (i + 1) w)
      else
        _ <~ print (possibilities_lines (length words) words) ;;
        let guesses := if hard then words else ALL_WORDS in
        r <~ call (guesser words guesses) ;;
        let '(g, msg) := r in
        loop_rounds N rounds (S i) words g (guesser_message msg)
  end.

Definition loop (words : list (list ascii)) : prog unit :=
  g <~ call (initial_guess words) ;;
  let msg := heuristic_initial_guess in
  let N := 10 in
  loop_rounds N N 0 words (Some g) msg.
End loop_body.

(** ** [main] *)

(** [lambda guess: give_feedback(word, guess)] *)
Definition known_word_feedback (word : list ascii)
    (guess : option (list ascii)) : prog (list ascii) :=
  match guess with
  | Some guess => call (give_feedback word guess)
  | None => raise TypeError
  end.

(** [main], with [sys.argv] and the dictionary it reads when the module is
    loaded as arguments. *)
Definition main (ALL_WORDS : list (list ascii)) (argv : list (list ascii))
    : prog unit :=
  if decide (1 < length argv) then
    word <~ call (index argv 1) ;;
    let feedbacker := known_word_feedback word in
    loop ALL_WORDS guess_greedy feedbacker false ALL_WORDS
  else
    let feedbacker := manual_feedback in
    loop ALL_WORDS guess_greedy feedbacker false ALL_WORDS.

(** ** The selector without its early exit

    The variant the early exit is compared with: [guess_greedy] with the
    test [if s > minval: break] removed, so that the sum over the words is
    always completed. *)

Section guess_greedy_naive_body.
Variable words : list (list ascii).

Fixpoint score_loop_naive (guess : list ascii)
    (ws : list (list ascii)) (s : nat) : result nat :=
  match ws with
  | [] => Ok s
  | w :: ws =>
      feedback <- give_feedback w guess ;;
      pruned <- prune words guess feedback ;;
      let s := s + length pruned in
      score_loop_naive guess ws s
  end.

Fixpoint guess_loop_naive (guesses : list (list ascii)) (minval : nat)
    (argmin : option (list ascii)) : result (nat * option (list ascii)) :=
  match guesses with
  | [] => Ok (minval, argmin)
  | guess :: guesses =>
      s <- score_loop_naive guess words 0 ;;
      if decide (s < minval) then guess_loop_naive guesses s (Some guess)
      else guess_loop_naive guesses minval argmin
  end.
End guess_greedy_naive_body.

Definition guess_greedy_naive (words guesses : list (list ascii))
    : result (option (list ascii) * message) :=
  let N := length words in
  let minval := N * N in
  let argmin := None in
  best <- guess_loop_naive words guesses minval argmin ;;
  let '(minval, argmin) := best in
  message <- format_message minval N ;;
  Ok (argmin, message).

(** * Definitions for the statements and proofs *)

(** The letters of [word] left once the positions where it agrees with
    [guess] are removed: what the last recursive call of [give_feedback]
    receives as its word. *)
Fixpoint unmatched (word guess : list ascii) : list ascii :=
  match word, guess with
  | wl :: word', gl :: guess' =>
      if decide (gl = wl) then unmatched word' guess'
      else wl :: unmatched word' guess'
  | _, _ => word
  end.

(** The value given to a guess letter [gl] facing the word letter [wl],
    [rest] being the letters of the word that no exact match uses. *)
Definition mark (rest : list ascii) (wl gl : ascii) : ascii :=
  if decide (gl = wl) then HERE
  else if decide (gl ∈ rest) then ELSEWHERE
  else NOWHERE.

Definition feedback_of (word guess : list ascii) : list ascii :=
  zip_with (mark (unmatched word guess)) word guess.

(** [rest[:i] + [x] + rest[i:]] *)
Definition put {A : Type} (i : nat) (x : A) (rest : list A) : list A :=
  take i rest ++ [x] ++ drop i rest.
Arguments put : simpl never.

(** What the second loop of [prune] asks of a word [w], for the pairs of
    [zip(guess, feedback)] from index [i] on. *)
Fixpoint letter_constraints (i : nat) (pairs : list (ascii * ascii))
    (w : list ascii) : Prop :=
  match pairs with
  | [] => True
  | (letter, result) :: pairs =>
      (result = NOWHERE → letter ∉ w)
      ∧ (result = ELSEWHERE → letter ∈ w ∧ w !! i ≠ Some letter)
      ∧ letter_constraints (S i) pairs w
  end.

#[global] Instance letter_constraints_dec i pairs w :
  Decision (letter_constraints i pairs w).
Proof.
  revert i. induction pairs as [|[letter result] pairs IH]; intros i; simpl.
  - apply _.
  - specialize (IH (S i)). apply _.
Defined.

(** Whether a call raised an exception. *)
Definition raises {A : Type} (r : result A) : bool :=
  match r with
  | Raise _ => true
  | _ => false
  end.

(** The three feedback values. *)
Definition feedback_value (r : ascii) : Prop :=
  r = HERE ∨ r = ELSEWHERE ∨ r = NOWHERE.

(** The score of a guess: the sum, over the words, of the number of words
    that give the same feedback. *)
Definition same_feedback (words : list (list ascii)) (guess w : list ascii)
    : list (list ascii) :=
  filter (λ w', feedback_of w' guess = feedback_of w guess) words.

Definition score (words : list (list ascii)) (guess : list ascii) : nat :=
  sum_list_with (λ w, length (same_feedback words guess w)) words.

(** The coverage of a word as the specification words it: the sum, over the
    distinct letters of the word, of the number of words that contain the
    letter. *)
Definition containing (words : list (list ascii)) (l : ascii) : nat :=
  length (filter (λ w : list ascii, l ∈ w) words).

Definition distinct_letter_coverage (words : list (list ascii))
    (word : list ascii) : nat :=
  sum_list_with (containing words) (remove_dups word).

(** A call that returned, or raised [IndexError]. *)
Definition Ok_or_IndexError {A : Type} (r : result A) : Prop :=
  match r with
  | Ok _ | Raise IndexError => True
  | _ => False
  end.

(** What a run of [loop] prints from its round [i] on, when the feedback
    is that of the known word [target] and the guesses come from the
    dictionary: rounds that print a guess and two or more possibilities,
    each list a part of the one before and holding [target], until either a
    guess leaves [target] alone, or the [N] rounds are over. *)
Inductive known_word_trace (ALL_WORDS : list (list ascii))
    (target : list ascii) (N : nat)
    : nat → list (list ascii) → list printed → Prop :=
  | trace_giving_up words :
      target ∈ words →
      known_word_trace ALL_WORDS target N N words [giving_up_lines N words]
  | trace_solution i words g msg :
      i < N → g ∈ ALL_WORDS →
      known_word_trace ALL_WORDS target N i words
        [guess_line (Some g) msg; solution_line (i + 1) target]
  | trace_round i words g msg words' events :
      i < N → g ∈ ALL_WORDS →
      words' `sublist_of` words → target ∈ words' → 2 ≤ length words' →
      known_word_trace ALL_WORDS target N (S i) words' events →
      known_word_trace ALL_WORDS target N i words
        (guess_line (Some g) msg
         :: possibilities_lines (length words') words' :: events).

(** The printed guesses. *)
Definition is_guess_line (x : printed) : bool :=
  match x with
  | guess_line _ _ => true
  | _ => false
  end.

(** * Properties *)

(** Goals [Forall P [x1; ...; xn]] over a literal list. *)
Ltac Forall_literal :=
  repeat first [apply Forall_nil_2 | apply Forall_cons_2].

(** ** Slices *)

Section slices.
Context {A : Type}.
Implicit Types (s : list A) (i : nat).

Lemma cut_cons_0 x s : cut (x :: s) 0 = s.
Proof. unfold cut. simpl. by rewrite drop_0. Qed.

Lemma cut_cons_S x s i : cut (x :: s) (S i) = x :: cut s i.
Proof. reflexivity. Qed.

Lemma length_cut s i : i < length s → length (cut s i) = pred (length s).
Proof.
  intros Hi. unfold cut.
  rewrite length_app, length_take, length_drop. lia.
Qed.

Lemma put_0 x s : put 0 x s = x :: s.
Proof. unfold put. simpl. by rewrite drop_0. Qed.

Lemma put_cons_S x y s i : put (S i) x (y :: s) = y :: put i x s.
Proof. reflexivity. Qed.

Lemma cut_put i x s : i ≤ length s → cut (put i x s) i = s.
Proof.
  revert s. induction i as [|i IH]; intros s Hi.
  - by rewrite put_0, cut_cons_0.
  - destruct s as [|y s]; simpl in Hi; [lia|].
    rewrite put_cons_S, cut_cons_S, IH by lia. done.
Qed.

Lemma put_cut i x s : s !! i = Some x → put i x (cut s i) = s.
Proof.
  revert s. induction i as [|i IH]; intros [|y s] Hx; simplify_eq/=.
  - by rewrite cut_cons_0, put_0.
  - rewrite cut_cons_S, put_cons_S, IH; done.
Qed.

End slices.

(** ** The evaluator in closed form *)

Lemma mark_HERE rest wl gl : mark rest wl gl = HERE ↔ gl = wl.
Proof. unfold mark. repeat case_decide; naive_solver. Qed.

Lemma mark_cases rest wl gl :
  mark rest wl gl = HERE ∨ mark rest wl gl = ELSEWHERE
  ∨ mark rest wl gl = NOWHERE.
Proof. unfold mark. repeat case_decide; auto. Qed.

Lemma unmatched_cut word guess i c :
  word !! i = Some c → guess !! i = Some c →
  unmatched (cut word i) (cut guess i) = unmatched word guess.
Proof.
  revert word guess.
  induction i as [|i IH]; intros [|wl word] [|gl guess] Hw Hg;
    simpl in Hw, Hg; simplify_eq.
  - rewrite !cut_cons_0. simpl. by rewrite decide_True.
  - rewrite !cut_cons_S. simpl. rewrite (IH _ _ Hw Hg). done.
Qed.

Lemma zip_with_mark_cut rest word guess i c :
  word !! i = Some c → guess !! i = Some c →
  put i HERE (zip_with (mark rest) (cut word i) (cut guess i))
  = zip_with (mark rest) word guess.
Proof.
  revert word guess.
  induction i as [|i IH]; intros [|wl word] [|gl guess] Hw Hg;
    simpl in Hw, Hg; simplify_eq.
  - rewrite !cut_cons_0, put_0. simpl. f_equal. symmetry. by apply mark_HERE.
  - rewrite !cut_cons_S. simpl. rewrite put_cons_S, (IH _ _ Hw Hg). done.
Qed.

(** Peeling any exact match, not only the first, gives the same feedback. *)
Lemma feedback_of_cut word guess i c :
  word !! i = Some c → guess !! i = Some c →
  put i HERE (feedback_of (cut word i) (cut guess i)) = feedback_of word guess.
Proof.
  intros Hw Hg. unfold feedback_of.
  rewrite (unmatched_cut _ _ _ _ Hw Hg). by apply zip_with_mark_cut with c.
Qed.

Lemma unmatched_no_match word guess :
  (∀ i c, word !! i = Some c → guess !! i ≠ Some c) →
  unmatched word guess = word.
Proof.
  revert guess. induction word as [|wl word IH]; intros [|gl guess] H; try done.
  simpl. rewrite decide_False.
  - f_equal. apply IH. intros i c Hw. apply (H (S i) c Hw).
  - intros ->. by apply (H 0 wl).
Qed.

Lemma length_feedback_of word guess :
  length (feedback_of word guess) = length word `min` length guess.
Proof. unfold feedback_of. apply length_zip_with. Qed.

Lemma lookup_feedback_of word guess i :
  feedback_of word guess !! i
  = wl ← word !! i; gl ← guess !! i;
    Some (mark (unmatched word guess) wl gl).
Proof.
  unfold feedback_of. rewrite lookup_zip_with.
  destruct (word !! i); simpl; [|done]. by destruct (guess !! i).
Qed.

(** A position of the feedback holds [HERE] exactly when word and guess agree
    there. *)
Lemma feedback_of_HERE word guess i :
  feedback_of word guess !! i = Some HERE
  ↔ ∃ c, word !! i = Some c ∧ guess !! i = Some c.
Proof.
  rewrite lookup_feedback_of. split.
  - destruct (word !! i) as [wl|]; simpl; [|done].
    destruct (guess !! i) as [gl|]; simpl; [|done].
    intros [= ->%mark_HERE]. eauto.
  - intros (c & -> & ->). simpl. f_equal. by apply mark_HERE.
Qed.

(** A list either has no element with a decidable property, or splits at the
    first one that has it. *)
Lemma first_split {A : Type} (P : A → Prop) `{!∀ x, Decision (P x)}
    (l : list A) :
  Forall (λ x, ¬ P x) l
  ∨ ∃ l1 x l2, l = l1 ++ x :: l2 ∧ Forall (λ x, ¬ P x) l1 ∧ P x.
Proof.
  induction l as [|x l IH]; [left; constructor|].
  destruct IH as [IH|(l1 & y & l2 & -> & Hl1 & Hy)].
  - destruct (decide (P x)) as [Hx|Hx].
    + right. by exists [], x, l.
    + left. by constructor.
  - right. destruct (decide (P x)) as [Hx|Hx].
    + by exists [], x, (l1 ++ y :: l2).
    + exists (x :: l1), y, l2. split_and!; [done|by constructor|done].
Qed.

Section give_feedback_loop_facts.
Variable rec : list ascii → list ascii → result (list ascii).
Variables word guess : list ascii.

Lemma give_feedback_loop_no_match i pairs out :
  Forall (λ p, p.2 ≠ p.1) pairs →
  give_feedback_loop rec word guess i pairs out
  = Ok (out ++ ((λ p, mark word p.1 p.2) <$> pairs)).
Proof.
  intros H. revert i out.
  induction H as [|[wl gl] pairs Hne _ IH]; intros i out; simpl in *.
  - by rewrite app_nil_r.
  - rewrite decide_False by done. unfold mark at 1. simpl.
    rewrite (decide_False (P := gl = wl)) by done.
    case_decide; rewrite IH, <- app_assoc; done.
Qed.

Lemma give_feedback_loop_match i ps1 c ps2 out :
  Forall (λ p, p.2 ≠ p.1) ps1 →
  give_feedback_loop rec word guess i (ps1 ++ (c, c) :: ps2) out
  = (rest <- rec (cut word (i + length ps1)) (cut guess (i + length ps1)) ;;
     Ok (put (i + length ps1) HERE rest)).
Proof.
  intros H. revert i out.
  induction H as [|[wl gl] ps1 Hne _ IH]; intros i out; simpl in *.
  - rewrite decide_True by done. by rewrite Nat.add_0_r.
  - rewrite decide_False by done.
    case_decide; rewrite IH; by replace (S i + length ps1)
      with (i + S (length ps1)) by lia.
Qed.
End give_feedback_loop_facts.

(** The pairs of [zip(word, guess)] without an exact match, read by index. *)
Lemma zip_no_match_lookup (word guess : list ascii) :
  Forall (λ p, p.2 ≠ p.1) (zip word guess) →
  ∀ i c, word !! i = Some c → guess !! i ≠ Some c.
Proof.
  intros H i c Hw Hg.
  assert (zip word guess !! i = Some (c, c)) as Hz.
  { rewrite lookup_zip_with, Hw. simpl. by rewrite Hg. }
  by apply (Forall_lookup_1 _ _ _ _ H Hz).
Qed.

Lemma zip_split_lookup {A B : Type} (s : list A) (t : list B) ps1 p ps2 :
  zip s t = ps1 ++ p :: ps2 →
  s !! length ps1 = Some p.1 ∧ t !! length ps1 = Some p.2.
Proof.
  intros Hz.
  assert (zip s t !! length ps1 = Some p) as Hl.
  { rewrite Hz. by apply list_lookup_middle. }
  apply lookup_zip_with_Some in Hl as (x & y & -> & ? & ?).
  done.
Qed.

(** With fuel beyond the length of the shorter argument, [give_feedback]
    returns the closed form. *)
Lemma give_feedback_fuel_closed fuel word guess :
  length word `min` length guess < fuel →
  give_feedback_fuel fuel word guess = Ok (feedback_of word guess).
Proof.
  revert word guess.
  induction fuel as [|fuel IH]; intros word guess Hfuel; [lia|]. simpl.
  destruct (first_split (λ p : ascii * ascii, p.2 = p.1) (zip word guess))
    as [Hno|(ps1 & [wl gl] & ps2 & Hz & Hno & Hc)].
  - rewrite give_feedback_loop_no_match by done. simpl. f_equal.
    unfold feedback_of.
    rewrite (unmatched_no_match word guess) by by apply zip_no_match_lookup.
    rewrite (zip_with_zip (mark word)). by apply list_fmap_ext; intros ? [??].
  - simpl in Hc. subst gl. rewrite Hz.
    rewrite give_feedback_loop_match by done. simpl.
    apply zip_split_lookup in Hz as [Hw Hg]. simpl in Hw, Hg.
    rewrite IH.
    + simpl. f_equal. by apply feedback_of_cut with wl.
    + apply lookup_lt_Some in Hw, Hg. rewrite !length_cut by done. lia.
Qed.

Lemma give_feedback_closed word guess :
  give_feedback word guess = Ok (feedback_of word guess).
Proof. apply give_feedback_fuel_closed. lia. Qed.

(** ** The filter *)

Lemma filter_in_iff {A : Type} (P1 P2 : A → Prop)
    `{!∀ x, Decision (P1 x), !∀ x, Decision (P2 x)} (l : list A) :
  (∀ x, x ∈ l → P1 x ↔ P2 x) → filter P1 l = filter P2 l.
Proof.
  induction l as [|x l IH]; intros Hiff; [done|].
  rewrite !filter_cons, IH by (intros; apply Hiff; by right).
  apply decide_ext, Hiff. by left.
Qed.

Lemma filter_all {A : Type} (P : A → Prop) `{!∀ x, Decision (P x)}
    (l : list A) :
  (∀ x, x ∈ l → P x) → filter P l = l.
Proof.
  induction l as [|x l IH]; intros Hall; [done|].
  rewrite filter_cons_True by (apply Hall; by left).
  f_equal. apply IH. intros; apply Hall; by right.
Qed.

(** Filtering an image: select with [Q], map by [f], filter with [P'] and map
    back by [g]. *)
Lemma filter_through {A B : Type} (P Q : A → Prop) (P' : B → Prop)
    `{!∀ x, Decision (P x), !∀ x, Decision (Q x), !∀ y, Decision (P' y)}
    (f : A → B) (g : B → A) (l : list A) :
  (∀ x, x ∈ l → Q x → g (f x) = x ∧ (P' (f x) ↔ P x)) →
  (∀ x, x ∈ l → ¬ Q x → ¬ P x) →
  g <$> filter P' (f <$> filter Q l) = filter P l.
Proof.
  induction l as [|x l IH]; intros HQ HnQ; [done|].
  assert (g <$> filter P' (f <$> filter Q l) = filter P l) as IH'.
  { apply IH; intros; [apply HQ|apply HnQ]; auto; by right. }
  rewrite (filter_cons Q). destruct (decide (Q x)) as [Hx|Hx].
  - destruct (HQ x) as [Hg HP]; [by left|done|].
    rewrite fmap_cons, !filter_cons.
    destruct (decide (P' (f x))) as [HP'|HP'].
    + rewrite decide_True by by apply HP.
      rewrite fmap_cons, Hg. by f_equal.
    + rewrite decide_False by by rewrite <- HP. done.
  - rewrite filter_cons_False by (apply HnQ; [by left|done]). done.
Qed.

Lemma filter_result_ok {A : Type} (cond : A → result bool) (P : A → Prop)
    `{!∀ x, Decision (P x)} (words : list A) :
  (∀ w, w ∈ words → cond w = Ok (bool_decide (P w))) →
  filter_result cond words = Ok (filter P words).
Proof.
  induction words as [|w words IH]; intros Hcond; [done|]. simpl.
  rewrite (Hcond w) by by left. simpl.
  rewrite IH by (intros; apply Hcond; by right). simpl.
  rewrite filter_cons. by case_bool_decide; case_decide.
Qed.

Lemma letter_constraints_lookup i pairs w :
  letter_constraints i pairs w
  ↔ ∀ k letter result, pairs !! k = Some (letter, result) →
      (result = NOWHERE → letter ∉ w)
      ∧ (result = ELSEWHERE → letter ∈ w ∧ w !! (i + k) ≠ Some letter).
Proof.
  revert i. induction pairs as [|[letter result] pairs IH]; intros i; simpl.
  - split; [|done]. by intros _ k ? ?.
  - rewrite IH. split.
    + intros (HN & HE & Hrest) [|k] l r Hk; simplify_eq/=.
      * by rewrite Nat.add_0_r.
      * replace (i + S k) with (S i + k) by lia. by apply Hrest.
    + intros H. split_and!.
      * by apply (H 0 letter result).
      * intros Hr. destruct (H 0 letter result eq_refl) as [_ HE].
        rewrite Nat.add_0_r in HE. by apply HE.
      * intros k l r Hk. replace (S i + k) with (i + S k) by lia.
        by apply (H (S k)).
Qed.

Lemma feedback_values_distinct :
  HERE ≠ ELSEWHERE ∧ HERE ≠ NOWHERE ∧ ELSEWHERE ≠ NOWHERE.
Proof. by split_and!. Qed.

(** The second loop is a filter, as long as every word reaches the last
    index visited and the feedback holds no [HERE]. *)
Lemma prune_filter_loop_filter i pairs words :
  Forall (λ p, p.2 ≠ HERE) pairs →
  Forall (λ w : list ascii, i + length pairs ≤ length w) words →
  prune_filter_loop i pairs words
  = Ok (filter (letter_constraints i pairs) words).
Proof.
  intros Hpairs. revert i words.
  induction Hpairs as [|[letter result] pairs Hne _ IH]; intros i words Hlen.
  { simpl. by rewrite filter_all. }
  simpl in Hne, Hlen. simpl. rewrite decide_False by done.
  assert (∀ ws : list (list ascii),
    Forall (λ w : list ascii, i + S (length pairs) ≤ length w) ws →
    prune_filter_loop (S i) pairs ws
    = Ok (filter (letter_constraints (S i) pairs) ws)) as IH'.
  { intros ws Hws. apply IH. eapply Forall_impl; [done|]. simpl. lia. }
  assert (∀ P `{!∀ w, Decision (P w)},
    Forall (λ w : list ascii, i + S (length pairs) ≤ length w)
      (filter P words)) as Hfilter.
  { intros P ?. apply Forall_forall. intros w [_ Hw]%list_elem_of_filter.
    by apply (proj1 (Forall_forall _ _) Hlen). }
  destruct (decide (result = NOWHERE)) as [->|HN];
    [|destruct (decide (result = ELSEWHERE)) as [->|HE]]; simpl.
  - rewrite IH' by apply Hfilter.
    f_equal. rewrite list_filter_filter. apply list_filter_iff.
    intros w. naive_solver.
  - rewrite (filter_result_ok _ (λ w, letter ∈ w ∧ w !! i ≠ Some letter)).
    + simpl. rewrite IH' by apply Hfilter.
      f_equal. rewrite list_filter_filter. apply list_filter_iff.
      intros w. naive_solver.
    + intros w Hw. case_decide as Hin.
      * unfold index.
        destruct (w !! i) as [c|] eqn:Hc; simpl.
        -- f_equal. apply bool_decide_ext. naive_solver.
        -- apply lookup_ge_None in Hc.
           pose proof (proj1 (Forall_forall _ _) Hlen w Hw) as Hwl.
           simpl in Hwl. lia.
      * f_equal. symmetry. apply bool_decide_eq_false. naive_solver.
  - rewrite IH' by done. f_equal. apply list_filter_iff.
    intros w. naive_solver.
Qed.

Section prune_here_loop_facts.
Variable rec :
  list (list ascii) → list ascii → list ascii → result (list (list ascii)).
Variables guess feedback : list ascii.

Lemma prune_here_loop_no_here words i pairs :
  Forall (λ p, p.2 ≠ HERE) pairs →
  prune_here_loop rec guess feedback words i pairs
  = prune_filter_loop 0 (zip guess feedback) words.
Proof.
  intros H. revert i.
  induction H as [|[letter result] pairs Hne _ IH]; intros i; simpl in *.
  - done.
  - by rewrite decide_False.
Qed.

Lemma prune_here_loop_here words i ps1 letter ps2 :
  Forall (λ p, p.2 ≠ HERE) ps1 →
  prune_here_loop rec guess feedback words i (ps1 ++ (letter, HERE) :: ps2)
  = (consistent <-
       filter_result
         (λ w, c <- index w (i + length ps1) ;; Ok (bool_decide (c = letter)))
         words ;;
     pruned <- rec ((λ w, cut w (i + length ps1)) <$> consistent)
                 (cut guess (i + length ps1)) (cut feedback (i + length ps1)) ;;
     Ok (put (i + length ps1) letter <$> pruned)).
Proof.
  intros H. revert i.
  induction H as [|[l r] ps1 Hne _ IH]; intros i; simpl in *.
  - by rewrite Nat.add_0_r.
  - rewrite decide_False by done. rewrite IH.
    by replace (S i + length ps1) with (i + S (length ps1)) by lia.
Qed.
End prune_here_loop_facts.

(** ** A word passes the filter exactly when it reproduces the feedback *)

Lemma feedback_of_peel w guess feedback i letter :
  guess !! i = Some letter → w !! i = Some letter →
  feedback !! i = Some HERE →
  feedback_of (cut w i) (cut guess i) = cut feedback i
  ↔ feedback_of w guess = feedback.
Proof.
  intros Hg Hw Hf. rewrite <- (feedback_of_cut w guess i letter) by done.
  split.
  - intros ->. by apply put_cut.
  - intros <-. rewrite cut_put; [done|].
    apply lookup_lt_Some in Hg, Hw.
    rewrite length_feedback_of, !length_cut by done. lia.
Qed.

Lemma feedback_of_miss w guess feedback i letter :
  guess !! i = Some letter → w !! i ≠ Some letter →
  feedback !! i = Some HERE →
  feedback_of w guess ≠ feedback.
Proof.
  intros Hg Hw Hf <-. apply feedback_of_HERE in Hf as (c & Hc & Hc').
  congruence.
Qed.

Lemma letter_constraints_feedback_of w guess feedback :
  length w = length guess → length guess = length feedback →
  Forall feedback_value feedback →
  Forall (λ r, r ≠ HERE) feedback →
  letter_constraints 0 (zip guess feedback) w
  ↔ feedback_of w guess = feedback.
Proof.
  intros Hwg Hgf Hval Hno. rewrite letter_constraints_lookup.
  destruct feedback_values_distinct as (HhE & HhN & HeN).
  split.
  - intros Hc.
    assert (∀ k wl gl, w !! k = Some wl → guess !! k = Some gl →
      ∃ r, feedback !! k = Some r
        ∧ gl ≠ wl ∧ (r = NOWHERE ∧ gl ∉ w ∨ r = ELSEWHERE ∧ gl ∈ w)) as Hk.
    { intros k wl gl Hw Hg.
      destruct (feedback !! k) as [r|] eqn:Hr.
      2:{ apply lookup_ge_None in Hr. apply lookup_lt_Some in Hg. lia. }
      exists r. split; [done|].
      destruct (Hc k gl r) as [HN HE].
      { rewrite lookup_zip_with, Hg. simpl. by rewrite Hr. }
      pose proof (proj1 (Forall_lookup _ _) Hval k r Hr) as [?|[->| ->]].
      - by destruct (proj1 (Forall_lookup _ _) Hno k r Hr).
      - destruct HE as [Hin Hne]; [done|]. simpl in Hne.
        split; [congruence|]. by right.
      - specialize (HN eq_refl). split; [|by left].
        intros ->. apply HN. by apply list_elem_of_lookup_2 with k. }
    assert (unmatched w guess = w) as Hun.
    { apply unmatched_no_match. intros k c Hw Hg.
      destruct (Hk k c c Hw Hg) as (? & _ & ? & _). done. }
    apply list_eq. intros k. rewrite lookup_feedback_of, Hun.
    destruct (w !! k) as [wl|] eqn:Hw; simpl.
    + destruct (guess !! k) as [gl|] eqn:Hg; simpl.
      2:{ apply lookup_ge_None in Hg. apply lookup_lt_Some in Hw. lia. }
      destruct (Hk k wl gl Hw Hg) as (r & -> & Hne & Hr). f_equal.
      unfold mark. rewrite decide_False by done.
      destruct Hr as [[-> ?]|[-> ?]]; by case_decide.
    + symmetry. apply lookup_ge_None. apply lookup_ge_None in Hw. lia.
  - intros <- k gl r [wl' [gl' (? & Hg & Hr)]]%lookup_zip_with_Some.
    simplify_eq.
    assert (unmatched w guess = w) as Hun.
    { apply unmatched_no_match. intros j c Hw Hg'.
      assert (feedback_of w guess !! j = Some HERE) as Hj
        by (apply feedback_of_HERE; eauto).
      by destruct (proj1 (Forall_lookup _ _) Hno j _ Hj). }
    rewrite lookup_feedback_of, Hun, Hg in Hr.
    destruct (w !! k) as [wl|] eqn:Hw; simplify_eq/=.
    unfold mark. repeat case_decide; split; try done.
    intros _. split; [done|]. congruence.
Qed.

Lemma Forall_cut {A : Type} (P : A → Prop) (s : list A) i :
  Forall P s → Forall P (cut s i).
Proof.
  intros H. unfold cut. apply Forall_app. split.
  - by apply Forall_take.
  - by apply Forall_drop.
Qed.

Lemma zip_no_HERE (guess feedback : list ascii) :
  length guess = length feedback →
  Forall (λ p, p.2 ≠ HERE) (zip guess feedback) →
  Forall (λ r, r ≠ HERE) feedback.
Proof.
  intros Hlen H. apply Forall_lookup. intros k r Hr.
  destruct (guess !! k) as [gl|] eqn:Hg.
  - apply (proj1 (Forall_lookup _ _) H k (gl, r)).
    rewrite lookup_zip_with, Hg. simpl. by rewrite Hr.
  - apply lookup_ge_None in Hg. apply lookup_lt_Some in Hr. lia.
Qed.

(** With enough fuel and arguments of one length, [prune] keeps the words
    whose feedback against the guess is the one given. *)
Lemma prune_fuel_filter fuel words guess feedback :
  length guess < fuel →
  length guess = length feedback →
  Forall (λ w : list ascii, length w = length guess) words →
  Forall feedback_value feedback →
  prune_fuel fuel words guess feedback
  = Ok (filter (λ w, feedback_of w guess = feedback) words).
Proof.
  revert words guess feedback.
  induction fuel as [|fuel IH]; intros words guess feedback Hfuel Hgf Hws Hval;
    [lia|].
  simpl.
  destruct (first_split (λ p : ascii * ascii, p.2 = HERE) (zip guess feedback))
    as [Hno|(ps1 & [letter r] & ps2 & Hz & Hno & Hr)].
  - rewrite prune_here_loop_no_here by done.
    rewrite prune_filter_loop_filter; [|done|].
    + f_equal. apply filter_in_iff. intros w Hw.
      apply letter_constraints_feedback_of;
        [|done|done|by apply zip_no_HERE with guess].
      by apply (proj1 (Forall_forall _ _) Hws).
    + eapply Forall_impl; [done|]. intros w Hw. simpl in *.
      rewrite length_zip_with. lia.
  - simpl in Hr. subst r. rewrite Hz.
    rewrite prune_here_loop_here by done. simpl.
    apply zip_split_lookup in Hz as [Hg Hf]. simpl in Hg, Hf.
    set (i := length ps1) in *.
    assert (i < length guess) as Hi by by apply lookup_lt_Some in Hg.
    rewrite (filter_result_ok _ (λ w : list ascii, w !! i = Some letter)).
    2:{ intros w Hw. apply (proj1 (Forall_forall _ _) Hws) in Hw.
        unfold index. destruct (w !! i) as [c|] eqn:Hc; simpl.
        - f_equal. apply bool_decide_ext. naive_solver.
        - apply lookup_ge_None in Hc. lia. }
    simpl. rewrite IH.
    + simpl. f_equal. apply filter_through.
      * intros w _ Hw. split; [by apply put_cut|].
        by apply feedback_of_peel with letter.
      * intros w _ Hw. by apply feedback_of_miss with i letter.
    + rewrite length_cut by done. lia.
    + rewrite !length_cut by lia. lia.
    + apply Forall_fmap, Forall_forall.
      intros w [Hw Hin]%list_elem_of_filter. simpl.
      apply (proj1 (Forall_forall _ _) Hws) in Hin.
      rewrite !length_cut by lia. lia.
    + by apply Forall_cut.
Qed.

Lemma prune_filter words guess feedback :
  length guess = length feedback →
  Forall (λ w : list ascii, length w = length guess) words →
  Forall feedback_value feedback →
  prune words guess feedback
  = Ok (filter (λ w, give_feedback w guess = Ok feedback) words).
Proof.
  intros Hgf Hws Hval. unfold prune.
  rewrite prune_fuel_filter by (done || lia).
  f_equal. apply list_filter_iff. intros w.
  rewrite give_feedback_closed. naive_solver.
Qed.

(** C1: for words, a guess and a feedback of one length [L], [prune] returns
    exactly the words of the collection whose feedback against the guess,
    computed by [give_feedback], is the feedback given, in the order of the
    collection; repeated letters are no exception. *)
Theorem prune_keeps_words_with_feedback (L : nat) (words : list (list ascii))
    (guess feedback : list ascii) :
  Forall (λ w : list ascii, length w = L) words →
  length guess = L →
  length feedback = L →
  Forall feedback_value feedback →
  prune words guess feedback
  = Ok (filter (λ w, give_feedback w guess = Ok feedback) words).
Proof.
  intros Hws <- Hf Hval. by apply prune_filter.
Qed.

Lemma prune_keeps_words_with_feedback_witness :
  prune [str "EX"; str "EE"; str "XE"] (str "EE") [HERE; NOWHERE]
  = Ok (filter (λ w, give_feedback w (str "EE") = Ok [HERE; NOWHERE])
          [str "EX"; str "EE"; str "XE"]).
Proof.
  apply (prune_keeps_words_with_feedback 2).
  - Forall_literal; reflexivity.
  - reflexivity.
  - reflexivity.
  - Forall_literal; unfold feedback_value; auto.
Defined.

(** C7: pruning twice with the same guess and feedback, all of one length,
    gives what pruning once gives. *)
Theorem prune_idempotent (L : nat) (words : list (list ascii))
    (guess feedback : list ascii) :
  Forall (λ w : list ascii, length w = L) words →
  length guess = L →
  length feedback = L →
  Forall feedback_value feedback →
  (pruned <- prune words guess feedback ;; prune pruned guess feedback)
  = prune words guess feedback.
Proof.
  intros Hws <- Hf Hval. rewrite (prune_filter words) by done. simpl.
  rewrite prune_filter; [|done| |done].
  - f_equal. apply filter_all. by intros w [? _]%list_elem_of_filter.
  - apply Forall_forall. intros w [_ Hw]%list_elem_of_filter.
    by apply (proj1 (Forall_forall _ _) Hws).
Qed.

Lemma prune_idempotent_witness :
  (pruned <- prune [str "EX"; str "EE"; str "XE"] (str "EE") [HERE; NOWHERE] ;;
   prune pruned (str "EE") [HERE; NOWHERE])
  = prune [str "EX"; str "EE"; str "XE"] (str "EE") [HERE; NOWHERE].
Proof.
  apply (prune_idempotent 2).
  - Forall_literal; reflexivity.
  - reflexivity.
  - reflexivity.
  - Forall_literal; unfold feedback_value; auto.
Defined.

(** C5: on the documented two-letter example, [give_feedback] of the word EX
    and the guess EE is [HERE; NOWHERE]: the second E of the guess is marked
    [NOWHERE], the E of the word being consumed by the exact match. *)
Theorem give_feedback_EX_EE :
  give_feedback (str "EX") (str "EE") = Ok [HERE; NOWHERE].
Proof. vm_compute. reflexivity. Qed.

(** C8: for a word and a guess of one length [L], [give_feedback] returns a
    list of length [L] each of whose elements is [HERE], [ELSEWHERE] or
    [NOWHERE]. *)
Theorem give_feedback_well_formed (L : nat) (word guess : list ascii) :
  length word = L →
  length guess = L →
  ∃ out, give_feedback word guess = Ok out
    ∧ length out = L ∧ Forall feedback_value out.
Proof.
  intros Hw Hg. exists (feedback_of word guess). split_and!.
  - apply give_feedback_closed.
  - rewrite length_feedback_of. lia.
  - apply Forall_lookup. intros i r.
    rewrite lookup_feedback_of.
    destruct (word !! i); simpl; [|done].
    destruct (guess !! i); simpl; [|done].
    intros [= <-]. apply mark_cases.
Qed.

Lemma give_feedback_well_formed_witness :
  ∃ out, give_feedback (str "DCBA") (str "ABCD") = Ok out
    ∧ length out = 4 ∧ Forall feedback_value out.
Proof. apply (give_feedback_well_formed 4); reflexivity. Defined.

(** C10: for a word and a guess of any lengths, equal or not,
    [give_feedback] raises nothing and returns a list as long as the shorter
    of the two. *)
Theorem give_feedback_truncates (word guess : list ascii) :
  ∃ out, give_feedback word guess = Ok out
    ∧ length out = length word `min` length guess.
Proof.
  exists (feedback_of word guess). split.
  - apply give_feedback_closed.
  - apply length_feedback_of.
Qed.

Example give_feedback_short_guess :
  give_feedback (str "CRANE") (str "CAR") = Ok [HERE; ELSEWHERE; ELSEWHERE].
Proof. vm_compute. reflexivity. Qed.

Example give_feedback_short_word :
  give_feedback (str "CAR") (str "CRANE") = Ok [HERE; ELSEWHERE; ELSEWHERE].
Proof. vm_compute. reflexivity. Qed.

(** ** Termination *)

Lemma bind_not_OutOfFuel {A B : Type} (r : result A) (k : A → result B) :
  r ≠ OutOfFuel → (∀ a, k a ≠ OutOfFuel) → bind r k ≠ OutOfFuel.
Proof. destruct r; simpl; auto. Qed.

Lemma index_not_OutOfFuel {A : Type} (s : list A) i : index s i ≠ OutOfFuel.
Proof. unfold index. by destruct (s !! i). Qed.

Lemma filter_result_not_OutOfFuel {A : Type} (cond : A → result bool) words :
  (∀ w, cond w ≠ OutOfFuel) → filter_result cond words ≠ OutOfFuel.
Proof.
  intros Hcond. induction words as [|w words IH]; [done|]. simpl.
  apply bind_not_OutOfFuel; [done|]. intros b.
  apply bind_not_OutOfFuel; done.
Qed.

Lemma prune_filter_loop_not_OutOfFuel i pairs words :
  prune_filter_loop i pairs words ≠ OutOfFuel.
Proof.
  revert i words.
  induction pairs as [|[letter result] pairs IH]; intros i words; [done|].
  simpl. case_decide; [done|].
  apply bind_not_OutOfFuel; [by case_decide|]. intros words1.
  apply bind_not_OutOfFuel; [|done].
  case_decide; [|done]. apply filter_result_not_OutOfFuel. intros w.
  case_decide; [|done].
  apply bind_not_OutOfFuel; [apply index_not_OutOfFuel|done].
Qed.

(** Any two amounts of fuel beyond the length of the shorter of guess and
    feedback give [prune] the same outcome, which is not [OutOfFuel]. *)
Lemma prune_fuel_enough fuel fuel' words guess feedback :
  length guess `min` length feedback < fuel →
  length guess `min` length feedback < fuel' →
  prune_fuel fuel words guess feedback = prune_fuel fuel' words guess feedback
  ∧ prune_fuel fuel words guess feedback ≠ OutOfFuel.
Proof.
  revert fuel' words guess feedback.
  induction fuel as [|fuel IH]; intros [|fuel'] words guess feedback ? ?;
    try lia.
  simpl.
  destruct (first_split (λ p : ascii * ascii, p.2 = HERE) (zip guess feedback))
    as [Hno|(ps1 & [letter r] & ps2 & Hz & Hno & Hr)].
  - rewrite !prune_here_loop_no_here by done.
    split; [done|apply prune_filter_loop_not_OutOfFuel].
  - simpl in Hr. subst r. rewrite Hz.
    rewrite !prune_here_loop_here by done. simpl.
    apply zip_split_lookup in Hz as [Hg Hf]. simpl in Hg, Hf.
    apply lookup_lt_Some in Hg, Hf.
    assert (∀ ws, prune_fuel fuel ws (cut guess (length ps1))
                    (cut feedback (length ps1))
                  = prune_fuel fuel' ws (cut guess (length ps1))
                      (cut feedback (length ps1))
                  ∧ prune_fuel fuel ws (cut guess (length ps1))
                      (cut feedback (length ps1)) ≠ OutOfFuel) as Hrec.
    { intros ws. apply IH; rewrite !length_cut by done; lia. }
    split.
    + destruct (filter_result _ words); simpl; [|done..].
      by rewrite (proj1 (Hrec _)).
    + apply bind_not_OutOfFuel.
      * apply filter_result_not_OutOfFuel. intros w.
        apply bind_not_OutOfFuel; [apply index_not_OutOfFuel|done].
      * intros consistent. apply bind_not_OutOfFuel; [apply Hrec|done].
Qed.

(** C9: [give_feedback] and [prune] terminate on all inputs.  A recursive
    call removes one position of its arguments, which makes them strictly
    shorter, so a recursion depth beyond the length of the guess is never
    needed: with any such fuel both functions give the outcome of the
    top-level call, a list for [give_feedback] and a list or an exception for
    [prune], never [OutOfFuel]. *)
Theorem recursion_terminates (fuel : nat) (words : list (list ascii))
    (word guess feedback : list ascii) :
  length guess < fuel →
  (∀ (s : list ascii) i, i < length s → length (cut s i) < length s)
  ∧ give_feedback_fuel fuel word guess = give_feedback word guess
  ∧ (∃ out, give_feedback word guess = Ok out)
  ∧ prune_fuel fuel words guess feedback = prune words guess feedback
  ∧ prune words guess feedback ≠ OutOfFuel.
Proof.
  intros Hfuel. split_and!.
  - intros s i Hi. rewrite length_cut by done. lia.
  - rewrite give_feedback_closed. apply give_feedback_fuel_closed. lia.
  - eexists. apply give_feedback_closed.
  - apply prune_fuel_enough; lia.
  - apply (prune_fuel_enough _ (S (length guess))); lia.
Qed.

Lemma recursion_terminates_witness :
  (∀ (s : list ascii) i, i < length s → length (cut s i) < length s)
  ∧ give_feedback_fuel 5 (str "ABCA") (str "AAXA")
    = give_feedback (str "ABCA") (str "AAXA")
  ∧ (∃ out, give_feedback (str "ABCA") (str "AAXA") = Ok out)
  ∧ prune_fuel 5 [str "ABCA"; str "AAXA"; str "ABBA"; str "XBCX"]
      (str "AAXA") (str "hnnh")
    = prune [str "ABCA"; str "AAXA"; str "ABBA"; str "XBCX"]
        (str "AAXA") (str "hnnh")
  ∧ prune [str "ABCA"; str "AAXA"; str "ABBA"; str "XBCX"]
      (str "AAXA") (str "hnnh") ≠ OutOfFuel.
Proof. apply (recursion_terminates 5). simpl. lia. Defined.

(** On this input both functions recurse twice, once for each exact match:
    two levels of recursion are not enough, three are. *)
Example recursion_depth :
  give_feedback_fuel 2 (str "ABCA") (str "AAXA") = OutOfFuel
  ∧ give_feedback_fuel 3 (str "ABCA") (str "AAXA") = Ok (str "hnnh")
  ∧ prune_fuel 2 [str "ABCA"; str "AAXA"; str "ABBA"; str "XBCX"]
      (str "AAXA") (str "hnnh") = OutOfFuel
  ∧ prune_fuel 3 [str "ABCA"; str "AAXA"; str "ABBA"; str "XBCX"]
      (str "AAXA") (str "hnnh") = Ok [str "ABCA"; str "ABBA"].
Proof. vm_compute. done. Qed.

Example prune_short_word :
  prune [str "AABC"; str "AB"] (str "ABCD") (str "eehh") = Raise IndexError.
Proof. vm_compute. reflexivity. Qed.

(** ** The selector *)

Lemma feedback_of_values word guess :
  Forall feedback_value (feedback_of word guess).
Proof.
  apply Forall_lookup. intros i r. rewrite lookup_feedback_of.
  destruct (word !! i); simpl; [|done].
  destruct (guess !! i); simpl; [|done].
  intros [= <-]. apply mark_cases.
Qed.

Section selector.
Variables (L : nat) (words : list (list ascii)).
Hypothesis words_length : Forall (λ w : list ascii, length w = L) words.

(** One term of the sum: the feedback of a word, then the pruning. *)
Lemma prune_give_feedback guess w :
  length guess = L → length w = L →
  (feedback <- give_feedback w guess ;; prune words guess feedback)
  = Ok (same_feedback words guess w).
Proof.
  intros Hg Hw. rewrite give_feedback_closed. simpl. unfold prune.
  rewrite prune_fuel_filter; [done|lia| | |apply feedback_of_values].
  - rewrite length_feedback_of. lia.
  - by rewrite Hg.
Qed.

Lemma score_loop_naive_sum guess ws s :
  length guess = L → Forall (λ w : list ascii, length w = L) ws →
  score_loop_naive words guess ws s
  = Ok (s + sum_list_with (λ w, length (same_feedback words guess w)) ws).
Proof.
  intros Hg Hws. revert s.
  induction Hws as [|w ws Hw _ IH]; intros s.
  - simpl. by rewrite Nat.add_0_r.
  - cbn [score_loop_naive sum_list_with].
    pose proof (prune_give_feedback guess w Hg Hw) as Hterm.
    destruct (give_feedback w guess) as [feedback| |]; cbn [bind] in *;
      try done.
    rewrite Hterm. cbn [bind]. rewrite IH. f_equal. lia.
Qed.

(** The early exit leaves the loop either with the whole sum, or with a
    partial sum that is beyond [minval], as the whole sum then is. *)
Lemma score_loop_sum guess minval ws s :
  length guess = L → Forall (λ w : list ascii, length w = L) ws →
  ∃ s', score_loop words guess minval ws s = Ok s'
    ∧ let sum :=
        s + sum_list_with (λ w, length (same_feedback words guess w)) ws in
      s' = sum ∨ minval < s' ≤ sum.
Proof.
  intros Hg Hws. revert s.
  induction Hws as [|w ws Hw _ IH]; intros s.
  - exists s. split; [done|]. left. simpl. lia.
  - cbn [score_loop sum_list_with].
    pose proof (prune_give_feedback guess w Hg Hw) as Hterm.
    destruct (give_feedback w guess) as [feedback| |]; cbn [bind] in *;
      try done.
    rewrite Hterm. cbn [bind]. case_decide as Hexit.
    + eexists. split; [done|]. right. cbv zeta. lia.
    + destruct (IH (s + length (same_feedback words guess w)))
        as (s' & -> & Hs'). exists s'. split; [done|]. cbv zeta in *. lia.
Qed.

Lemma score_loop_naive_score guess :
  length guess = L →
  score_loop_naive words guess words 0 = Ok (score words guess).
Proof. intros Hg. by rewrite score_loop_naive_sum. Qed.

(** A guess is taken or left alike with and without the early exit. *)
Lemma guess_loop_early_exit guesses minval argmin :
  Forall (λ g : list ascii, length g = L) guesses →
  guess_loop words guesses minval argmin
  = guess_loop_naive words guesses minval argmin.
Proof.
  intros Hgs. revert minval argmin.
  induction Hgs as [|guess guesses Hg _ IH]; intros minval argmin; [done|].
  simpl. rewrite score_loop_naive_score by done. simpl.
  destruct (score_loop_sum guess minval words 0 Hg words_length)
    as (s' & -> & Hs'). simpl in *. fold (score words guess) in Hs'.
  destruct Hs' as [->|Hs'].
  - case_decide; apply IH.
  - rewrite !decide_False by lia. apply IH.
Qed.

(** The selection without early exit, in terms of the scores. *)
Lemma guess_loop_naive_unfold guess guesses minval argmin :
  length guess = L →
  guess_loop_naive words (guess :: guesses) minval argmin
  = if decide (score words guess < minval)
    then guess_loop_naive words guesses (score words guess) (Some guess)
    else guess_loop_naive words guesses minval argmin.
Proof. intros Hg. simpl. by rewrite score_loop_naive_score. Qed.

Lemma guess_loop_naive_total guesses minval argmin :
  Forall (λ g : list ascii, length g = L) guesses →
  ∃ minval' argmin',
    guess_loop_naive words guesses minval argmin = Ok (minval', argmin').
Proof.
  intros Hgs. revert minval argmin.
  induction Hgs as [|guess guesses Hg _ IH]; intros minval argmin.
  - by eexists _, _.
  - rewrite guess_loop_naive_unfold by done. case_decide; apply IH.
Qed.
End selector.

Section selection.
Variables (L : nat) (words : list (list ascii)).
Hypothesis words_length : Forall (λ w : list ascii, length w = L) words.

(** Guesses that do not improve on the running minimum leave it as it is. *)
Lemma guess_loop_naive_keep guesses minval argmin :
  Forall (λ g : list ascii, length g = L) guesses →
  (∀ g, g ∈ guesses → minval ≤ score words g) →
  guess_loop_naive words guesses minval argmin = Ok (minval, argmin).
Proof.
  intros Hgs. revert minval argmin.
  induction Hgs as [|guess guesses Hg _ IH]; intros minval argmin Hle;
    [done|].
  rewrite (guess_loop_naive_unfold L) by done.
  rewrite decide_False.
  - apply IH. intros g Hin. apply Hle. by right.
  - apply Nat.nlt_ge, Hle. by left.
Qed.

(** Guesses with a score above [s] keep the running minimum above [s]. *)
Lemma guess_loop_naive_above s guesses rest minval argmin :
  Forall (λ g : list ascii, length g = L) guesses →
  (∀ g, g ∈ guesses → s < score words g) →
  s < minval →
  ∃ minval' argmin',
    s < minval'
    ∧ guess_loop_naive words (guesses ++ rest) minval argmin
      = guess_loop_naive words rest minval' argmin'.
Proof.
  intros Hgs. revert minval argmin.
  induction Hgs as [|guess guesses Hg _ IH]; intros minval argmin Hlt Hs.
  - by exists minval, argmin.
  - rewrite <- app_comm_cons, (guess_loop_naive_unfold L) by done.
    assert (∀ g, g ∈ guesses → s < score words g) as Hlt'
      by (intros; apply Hlt; by right).
    case_decide; apply IH; try done. apply Hlt. by left.
Qed.

(** When some guess scores below the initial bound, the first guess of
    minimal score is selected, with its score. *)
Lemma guess_greedy_naive_first_minimum before guess after :
  Forall (λ g : list ascii, length g = L) (before ++ guess :: after) →
  score words guess < length words * length words →
  (∀ g, g ∈ before → score words guess < score words g) →
  (∀ g, g ∈ after → score words guess ≤ score words g) →
  guess_greedy_naive words (before ++ guess :: after)
  = Ok (Some guess, expected_size (score words guess) (length words)).
Proof.
  intros [Hbefore [Hg Hafter]%Forall_cons]%Forall_app Hbound Hlt Hle.
  unfold guess_greedy_naive.
  destruct (guess_loop_naive_above (score words guess) before
    (guess :: after) (length words * length words) None)
    as (minval' & argmin' & Hminval' & ->); [done..|].
  rewrite (guess_loop_naive_unfold L) by done.
  rewrite decide_True by done.
  rewrite guess_loop_naive_keep by done. simpl.
  unfold format_message. rewrite decide_False by lia. done.
Qed.
End selection.

(** C2: the early exit changes nothing.  For a non-empty collection of words
    and a pool of guesses, all of one length, [guess_greedy] returns the guess
    and the minimal score that the variant without [break] returns. *)
Theorem early_exit_preserves_result (L : nat)
    (words guesses : list (list ascii)) :
  words ≠ [] →
  Forall (λ w : list ascii, length w = L) words →
  Forall (λ g : list ascii, length g = L) guesses →
  ∃ argmin minval,
    guess_greedy_naive words guesses
    = Ok (argmin, expected_size minval (length words))
    ∧ guess_greedy words guesses
      = Ok (argmin, expected_size minval (length words)).
Proof.
  intros Hne Hws Hgs. unfold guess_greedy, guess_greedy_naive.
  rewrite (guess_loop_early_exit L) by done.
  destruct (guess_loop_naive_total L words Hws guesses
    (length words * length words) None Hgs) as (minval & argmin & ->).
  exists argmin, minval. simpl. unfold format_message.
  rewrite decide_False by by destruct words. done.
Qed.

Lemma early_exit_preserves_result_witness :
  ∃ argmin minval,
    guess_greedy_naive [str "AABC"; str "ABCD"; str "DCBA"]
      [str "ABCD"; str "ZZZZ"]
    = Ok (argmin, expected_size minval 3)
    ∧ guess_greedy [str "AABC"; str "ABCD"; str "DCBA"]
        [str "ABCD"; str "ZZZZ"]
      = Ok (argmin, expected_size minval 3).
Proof.
  apply (early_exit_preserves_result 4).
  - discriminate.
  - Forall_literal; reflexivity.
  - Forall_literal; reflexivity.
Defined.

(** The early exit is taken on this input: with the minimum 3 reached by the
    first guess, the sum for the second stops at 6, short of its score 9. *)
Example early_exit_taken :
  score_loop [str "AABC"; str "ABCD"; str "DCBA"] (str "ZZZZ") 3
    [str "AABC"; str "ABCD"; str "DCBA"] 0 = Ok 6
  ∧ score [str "AABC"; str "ABCD"; str "DCBA"] (str "ZZZZ") = 9
  ∧ guess_greedy [str "AABC"; str "ABCD"; str "DCBA"] [str "ABCD"; str "ZZZZ"]
    = Ok (Some (str "ABCD"), expected_size 3 3).
Proof. vm_compute. done. Qed.

(** With the early exit too, the first guess of minimal score is selected
    when that score is below the initial bound, the square of the number of
    words. *)
Lemma guess_greedy_first_minimum (L : nat) (words : list (list ascii))
    before guess after :
  Forall (λ w : list ascii, length w = L) words →
  Forall (λ g : list ascii, length g = L) (before ++ guess :: after) →
  score words guess < length words * length words →
  (∀ g, g ∈ before → score words guess < score words g) →
  (∀ g, g ∈ after → score words guess ≤ score words g) →
  guess_greedy words (before ++ guess :: after)
  = Ok (Some guess, expected_size (score words guess) (length words)).
Proof.
  intros Hws Hgs Hbound Hlt Hle.
  rewrite <- (guess_greedy_naive_first_minimum L words Hws before guess after)
    by done.
  unfold guess_greedy, guess_greedy_naive.
  by rewrite (guess_loop_early_exit L).
Qed.

(** C3, as the code has it: with an empty pool of guesses and a non-empty
    collection of words, [guess_greedy] raises nothing; it returns no guess
    ([None]) and a message that reports the initial bound, the square of the
    number of words. *)
Theorem guess_greedy_empty_pool (words : list (list ascii)) :
  words ≠ [] →
  guess_greedy words []
  = Ok (None, expected_size (length words * length words) (length words)).
Proof.
  intros Hne. unfold guess_greedy. simpl. unfold format_message.
  rewrite decide_False by by destruct words. done.
Qed.

Lemma guess_greedy_empty_pool_witness :
  guess_greedy [str "EX"; str "EE"] []
  = Ok (None, expected_size (2 * 2) 2).
Proof. apply (guess_greedy_empty_pool [str "EX"; str "EE"]). discriminate. Defined.

(** C3, counterexample: on the words EX and EE and an empty pool,
    [guess_greedy] returns a pair and raises no exception. *)
Lemma guess_greedy_empty_pool_returns :
  guess_greedy [str "EX"; str "EE"] [] = Ok (None, expected_size 4 2)
  ∧ raises (guess_greedy [str "EX"; str "EE"] []) = false.
Proof. vm_compute. done. Qed.

(** C4, at the input where the code departs from it: the single word EX and
    the pool EX, EE.  Both guesses have the minimal score 1, which is also
    the initial value of [minval], so that neither is a strict improvement:
    no guess is selected, where the earlier one, EX, was to be. *)
Theorem guess_greedy_tie_at_initial_bound :
  score [str "EX"] (str "EX") = 1
  ∧ score [str "EX"] (str "EE") = 1
  ∧ guess_greedy [str "EX"] [str "EX"; str "EE"] = Ok (None, expected_size 1 1).
Proof. vm_compute. done. Qed.

(** The same with two words, AB and CD, that the guesses XY and ZW do not
    tell apart. *)
Example guess_greedy_tie_two_words :
  score [str "AB"; str "CD"] (str "XY") = 4
  ∧ score [str "AB"; str "CD"] (str "ZW") = 4
  ∧ guess_greedy [str "AB"; str "CD"] [str "XY"; str "ZW"]
    = Ok (None, expected_size 4 2).
Proof. vm_compute. done. Qed.

(** Below the bound the tie goes to the earlier guess. *)
Example guess_greedy_tie_below_bound :
  score [str "AB"; str "CD"] (str "AX") = 2
  ∧ score [str "AB"; str "CD"] (str "CX") = 2
  ∧ guess_greedy [str "AB"; str "CD"] [str "XY"; str "AX"; str "CX"]
    = Ok (Some (str "AX"), expected_size 2 2).
Proof. vm_compute. done. Qed.

(** ** The initial guess *)

Lemma sum_list_with_ext_in {A : Type} (f g : A → nat) (l : list A) :
  (∀ x, x ∈ l → f x = g x) → sum_list_with f l = sum_list_with g l.
Proof.
  induction l as [|x l IH]; intros Hfg; [done|]. simpl.
  rewrite (Hfg x), IH; [done| |by left]. intros; apply Hfg; by right.
Qed.

(** A counter holds, for each character, its number of occurrences. *)
Lemma Counter_foldl (s : list ascii) (m : gmap ascii nat) (c : ascii) :
  foldl (λ m c, <[c := S (m !!! c)]> m) m s !!! c
  = m !!! c + length (filter (λ x, x = c) s).
Proof.
  revert m. induction s as [|x s IH]; intros m; simpl; [lia|].
  rewrite IH, filter_cons. case_decide as Hx.
  - subst x. rewrite lookup_total_insert_eq. simpl. lia.
  - by rewrite lookup_total_insert_ne.
Qed.

Lemma Counter_lookup (s : list ascii) (c : ascii) :
  Counter s !!! c = length (filter (λ x, x = c) s).
Proof. unfold Counter. by rewrite Counter_foldl, lookup_total_empty. Qed.

Lemma count_NoDup (l : list ascii) (c : ascii) :
  NoDup l →
  length (filter (λ x, x = c) l) = if decide (c ∈ l) then 1 else 0.
Proof.
  induction 1 as [|x l Hx _ IH]; [done|].
  rewrite filter_cons, (decide_ext (c ∈ x :: l) (x = c ∨ c ∈ l))
    by (rewrite elem_of_cons; naive_solver).
  destruct (decide (x = c)) as [->|Hne]; simpl.
  - rewrite IH, decide_False by done. rewrite decide_True; [done|by left].
  - rewrite IH. apply decide_ext. naive_solver.
Qed.

Lemma letter_counts_containing (words : list (list ascii)) (c : ascii) :
  letter_counts words !!! c = containing words c.
Proof.
  unfold letter_counts, containing. rewrite Counter_lookup.
  induction words as [|w words IH]; [done|].
  rewrite fmap_cons. simpl. rewrite filter_app, length_app, IH.
  rewrite count_NoDup by apply NoDup_elements.
  rewrite (filter_cons (λ w, c ∈ w)).
  rewrite (decide_ext (c ∈ elements (set w)) (c ∈ w))
    by (unfold set; by rewrite elem_of_elements, elem_of_list_to_set).
  by case_decide.
Qed.

(** The coverage computed from the counter is the coverage over the distinct
    letters. *)
Lemma coverage_distinct_letters (words : list (list ascii)) (word : list ascii) :
  coverage words word = distinct_letter_coverage words word.
Proof.
  unfold coverage, distinct_letter_coverage.
  rewrite (sum_list_with_ext_in _ (containing words))
    by (intros; apply letter_counts_containing).
  apply sum_list_with_Permutation_proper, NoDup_Permutation.
  - apply NoDup_elements.
  - apply NoDup_remove_dups.
  - intros c. unfold set.
    by rewrite elem_of_elements, elem_of_list_to_set, elem_of_remove_dups.
Qed.

(** [max] returns the first of the items whose key is the largest. *)
Lemma py_max_loop_first {A : Type} (key : A → nat) (best : A) (items : list A) :
  ∃ k, (best :: items) !! k = Some (py_max_loop key best items)
    ∧ (∀ x, x ∈ best :: items → key x ≤ key (py_max_loop key best items))
    ∧ (∀ j x, j < k → (best :: items) !! j = Some x →
         key x < key (py_max_loop key best items)).
Proof.
  revert best. induction items as [|y items IH]; intros best; simpl.
  - exists 0. split_and!; [done| |intros; lia].
    by intros x ->%list_elem_of_singleton.
  - case_decide as Hlt.
    + destruct (IH y) as (k & Hk & Hall & Hfirst).
      assert (key y ≤ key (py_max_loop key y items)) by (apply Hall; by left).
      exists (S k). split_and!; [done| |].
      * intros x [->|Hx]%elem_of_cons; [lia|by apply Hall].
      * intros [|j] x Hj Hx; simplify_eq/=; [lia|].
        apply (Hfirst j); [lia|done].
    + destruct (IH best) as (k & Hk & Hall & Hfirst).
      assert (key best ≤ key (py_max_loop key best items))
        by (apply Hall; by left).
      destruct k as [|k].
      * exists 0. split_and!; [done| |intros; lia].
        intros x [->|[->|Hx]%elem_of_cons]%elem_of_cons; [done|lia|].
        apply Hall. by right.
      * assert (key best < key (py_max_loop key best items))
          by (apply (Hfirst 0); [lia|done]).
        exists (S (S k)). split_and!; [done| |].
        -- intros x [->|[->|Hx]%elem_of_cons]%elem_of_cons; [done|lia|].
           apply Hall. by right.
        -- intros [|[|j]] x Hj Hx; simplify_eq/=; [done|lia|].
           apply (Hfirst (S j)); [lia|done].
Qed.

(** C6: on a non-empty collection of words the initial guess is the word of
    largest coverage, the sum over the distinct letters of a word of the
    number of words that contain the letter; among the words of largest
    coverage it is the first of the collection. *)
Theorem initial_guess_maximal_coverage (words : list (list ascii)) :
  words ≠ [] →
  ∃ k g,
    initial_guess words = Ok g
    ∧ words !! k = Some g
    ∧ (∀ w, w ∈ words →
         distinct_letter_coverage words w ≤ distinct_letter_coverage words g)
    ∧ (∀ j w, j < k → words !! j = Some w →
         distinct_letter_coverage words w < distinct_letter_coverage words g).
Proof.
  intros Hne. unfold initial_guess.
  destruct words as [|w0 ws] eqn:Hwords; [done|]. rewrite <- Hwords. simpl.
  destruct (py_max_loop_first (coverage words) w0 ws)
    as (k & Hk & Hall & Hfirst).
  exists k, (py_max_loop (coverage words) w0 ws).
  rewrite Hwords at 1. simpl. rewrite <- Hwords in Hk, Hall, Hfirst.
  split_and!; [done..| |].
  - intros w Hw. rewrite <- !coverage_distinct_letters. by apply Hall.
  - intros j w Hj Hw. rewrite <- !coverage_distinct_letters.
    by apply (Hfirst j).
Qed.

Lemma initial_guess_maximal_coverage_witness :
  ∃ k g,
    initial_guess [str "AABC"; str "ABCD"; str "DCBA"] = Ok g
    ∧ [str "AABC"; str "ABCD"; str "DCBA"] !! k = Some g
    ∧ (∀ w, w ∈ [str "AABC"; str "ABCD"; str "DCBA"] →
         distinct_letter_coverage [str "AABC"; str "ABCD"; str "DCBA"] w
         ≤ distinct_letter_coverage [str "AABC"; str "ABCD"; str "DCBA"] g)
    ∧ (∀ j w, j < k → [str "AABC"; str "ABCD"; str "DCBA"] !! j = Some w →
         distinct_letter_coverage [str "AABC"; str "ABCD"; str "DCBA"] w
         < distinct_letter_coverage [str "AABC"; str "ABCD"; str "DCBA"] g).
Proof. apply initial_guess_maximal_coverage. discriminate. Defined.

(** ABCD and DCBA both cover 11; the earlier one is returned. *)
Example initial_guess_tie :
  initial_guess [str "AABC"; str "ABCD"; str "DCBA"] = Ok (str "ABCD")
  ∧ coverage [str "AABC"; str "ABCD"; str "DCBA"] (str "AABC") = 9
  ∧ coverage [str "AABC"; str "ABCD"; str "DCBA"] (str "ABCD") = 11
  ∧ coverage [str "AABC"; str "ABCD"; str "DCBA"] (str "DCBA") = 11.
Proof. vm_compute. done. Qed.

Example initial_guess_empty : initial_guess [] = Raise ValueError.
Proof. reflexivity. Qed.

(** * Further properties of the functions *)

(** ** [cut] *)

Lemma cut_lookup {A : Type} (s : list A) (i j : nat) :
  cut s i !! j = if decide (j < i) then s !! j else s !! S j.
Proof.
  revert s j. induction i as [|i IH]; intros [|x s] j.
  - by destruct j.
  - by rewrite cut_cons_0.
  - unfold cut. rewrite take_nil, drop_nil. by case_decide.
  - rewrite cut_cons_S. destruct j as [|j]; [done|]. simpl.
    rewrite IH. apply decide_ext. lia.
Qed.

(** X1: [cut(s, i)] is [s] without its position [i]: the positions before [i]
    are kept and the later ones move down by one.  When [i] is not a position
    of [s], nothing is removed. *)
Theorem lookup_cut {A : Type} (s : list A) (i j : nat) :
  cut s i !! j = if decide (j < i) then s !! j else s !! S j.
Proof. apply cut_lookup. Qed.

(** X2: Putting the removed element back at its position restores the string:
    [w[:i] + letter + w[i:]] undoes [cut(w, i)] when [w[i] == letter]. *)
Theorem restore_cut {A : Type} (s : list A) (i : nat) (x : A) :
  s !! i = Some x →
  take i (cut s i) ++ [x] ++ drop i (cut s i) = s.
Proof. apply put_cut. Qed.

Lemma restore_cut_witness :
  take 2 (cut (str "CRANE") 2) ++ ["A"] ++ drop 2 (cut (str "CRANE") 2)
  = str "CRANE".
Proof. apply (restore_cut (str "CRANE") 2 "A"). reflexivity. Defined.

(** ** [give_feedback] *)

(** X3: The recursion of [give_feedback] amounts to one pass over the pairs of
    letters: [HERE] where word and guess agree; elsewhere [ELSEWHERE] when
    the letter of the guess occurs among the letters of the word at the
    positions where the two disagree, however many times it was already
    counted, and [NOWHERE] when it does not. *)
Theorem give_feedback_one_pass (word guess : list ascii) :
  give_feedback word guess
  = Ok (zip_with (λ wl gl,
          if decide (gl = wl) then HERE
          else if decide (gl ∈ unmatched word guess) then ELSEWHERE
          else NOWHERE) word guess).
Proof. apply give_feedback_closed. Qed.

Lemma zip_with_mark_same rest (w : list ascii) :
  zip_with (mark rest) w w = replicate (length w) HERE.
Proof.
  induction w as [|c w IH]; [done|]. simpl. rewrite IH. f_equal.
  by apply mark_HERE.
Qed.

(** A word guessed exactly gets [HERE] at every position. *)
Theorem give_feedback_same (w : list ascii) :
  give_feedback w w = Ok (replicate (length w) HERE).
Proof.
  rewrite give_feedback_closed. unfold feedback_of.
  by rewrite zip_with_mark_same.
Qed.

Lemma feedback_of_all_HERE (word guess : list ascii) :
  length word = length guess →
  feedback_of word guess = replicate (length guess) HERE ↔ word = guess.
Proof.
  intros Hlen. split.
  - intros Hall. apply list_eq_same_length with (length guess); [done..|].
    intros i wl gl Hi Hw Hg.
    assert (feedback_of word guess !! i = Some HERE) as Hhere
      by (rewrite Hall; by apply lookup_replicate_2).
    apply feedback_of_HERE in Hhere as (c & ? & ?). congruence.
  - intros ->. unfold feedback_of. apply zip_with_mark_same.
Qed.

Lemma give_feedback_all_HERE_iff (word guess : list ascii) :
  length word = length guess →
  give_feedback word guess = Ok (replicate (length guess) HERE)
  ↔ word = guess.
Proof.
  intros Hlen. rewrite give_feedback_closed.
  rewrite <- (feedback_of_all_HERE word guess Hlen).
  split; [by intros [= ->]|by intros ->].
Qed.

(** X4: For a word and a guess of one length, the feedback is [HERE] at every
    position only when the guess is the word. *)
Theorem give_feedback_all_HERE (word guess : list ascii) :
  length word = length guess →
  give_feedback word guess = Ok (replicate (length guess) HERE)
  ↔ word = guess.
Proof. apply give_feedback_all_HERE_iff. Qed.

Lemma give_feedback_all_HERE_witness :
  give_feedback (str "EE") (str "EE") = Ok (replicate (length (str "EE")) HERE)
  ↔ str "EE" = str "EE".
Proof. apply give_feedback_all_HERE. reflexivity. Defined.

(** X5: A position of the feedback holds [HERE] exactly when the word and the
    guess have the same letter there, whatever their lengths. *)
Theorem give_feedback_HERE_iff (word guess out : list ascii) (i : nat) :
  give_feedback word guess = Ok out →
  out !! i = Some HERE ↔ ∃ c, word !! i = Some c ∧ guess !! i = Some c.
Proof.
  rewrite give_feedback_closed. intros [= <-]. apply feedback_of_HERE.
Qed.

Lemma give_feedback_HERE_iff_witness :
  [HERE; NOWHERE] !! 0 = Some HERE
  ↔ ∃ c, str "EX" !! 0 = Some c ∧ str "EE" !! 0 = Some c.
Proof.
  apply (give_feedback_HERE_iff (str "EX") (str "EE")). vm_compute. reflexivity.
Defined.

(** ** [prune] *)

Lemma bind_Ok {A B : Type} (r : result A) (k : A → result B) (b : B) :
  bind r k = Ok b ↔ ∃ a, r = Ok a ∧ k a = Ok b.
Proof. destruct r; simpl; naive_solver. Qed.

Lemma filter_result_Ok {A : Type} (cond : A → result bool) words kept :
  filter_result cond words = Ok kept →
  kept `sublist_of` words ∧ Forall (λ w, cond w = Ok true) kept.
Proof.
  revert kept. induction words as [|w words IH]; intros kept; simpl.
  - intros [= <-]. by split.
  - intros (b & Hb & (rest & Hrest & [= <-])%bind_Ok)%bind_Ok.
    destruct (IH rest Hrest) as [Hsub Hall]. destruct b.
    + split; [by constructor|by constructor].
    + split; [by constructor|done].
Qed.

Lemma prune_filter_loop_sublist i pairs words pruned :
  prune_filter_loop i pairs words = Ok pruned → pruned `sublist_of` words.
Proof.
  revert i words.
  induction pairs as [|[letter result] pairs IH]; intros i words; simpl.
  - by intros [= <-].
  - case_decide; [done|].
    intros (ws1 & H1 & (ws2 & H2 & Hrest)%bind_Ok)%bind_Ok.
    apply IH in Hrest. etrans; [done|].
    assert (ws1 `sublist_of` words).
    { destruct (decide (result = NOWHERE)); injection H1 as <-;
        [apply sublist_filter|done]. }
    assert (ws2 `sublist_of` ws1).
    { destruct (decide (result = ELSEWHERE)).
      - by apply filter_result_Ok in H2 as [? _].
      - by injection H2 as <-. }
    by etrans.
Qed.

Lemma prune_here_loop_sublist rec guess feedback words i pairs pruned :
  (∀ ws g f kept, rec ws g f = Ok kept → kept `sublist_of` ws) →
  prune_here_loop rec guess feedback words i pairs = Ok pruned →
  pruned `sublist_of` words.
Proof.
  intros Hrec. revert i.
  induction pairs as [|[letter result] pairs IH]; intros i; simpl.
  - apply prune_filter_loop_sublist.
  - case_decide; [|apply IH].
    intros (consistent & Hcons & (kept & Hkept & [= <-])%bind_Ok)%bind_Ok.
    apply filter_result_Ok in Hcons as [Hsub Hall].
    apply Hrec in Hkept. etrans; [|done].
    assert (put i letter <$> ((λ w, cut w i) <$> consistent) = consistent)
      as <-.
    { rewrite <- list_fmap_compose. rewrite <- (list_fmap_id consistent) at 2.
      apply Forall_fmap_ext_1. eapply Forall_impl; [done|].
      intros w Hw. simpl in *. unfold index in Hw.
      destruct (w !! i) as [c|] eqn:Hc; simplify_eq/=.
      apply put_cut. by case_bool_decide; simplify_eq. }
    by apply fmap_sublist.
Qed.

Lemma prune_fuel_sublist fuel words guess feedback pruned :
  prune_fuel fuel words guess feedback = Ok pruned →
  pruned `sublist_of` words.
Proof.
  revert words guess feedback pruned.
  induction fuel as [|fuel IH]; intros words guess feedback pruned; [done|].
  simpl. by apply prune_here_loop_sublist.
Qed.

(** X6: Whatever the lengths of the words and whatever the feedback holds, a
    list that [prune] returns is made of words of the collection, in their
    order: nothing is added, so that the possibilities never grow. *)
Theorem prune_shrinks (words : list (list ascii)) (guess feedback : list ascii)
    (pruned : list (list ascii)) :
  prune words guess feedback = Ok pruned →
  pruned `sublist_of` words ∧ length pruned ≤ length words.
Proof.
  intros Hp%prune_fuel_sublist. split; [done|by apply sublist_length].
Qed.

Lemma prune_shrinks_witness :
  [str "DCBA"] `sublist_of` [str "AABC"; str "ABCD"; str "DCBA"]
  ∧ length [str "DCBA"] ≤ length [str "AABC"; str "ABCD"; str "DCBA"].
Proof.
  apply (prune_shrinks _ (str "ABCD") (str "eeee")). vm_compute. reflexivity.
Defined.

(** X7: The word that a feedback comes from survives the pruning by this
    feedback: for words and a guess of one length, the word stays among the
    possibilities. *)
Theorem prune_keeps_the_word (L : nat) (words : list (list ascii))
    (guess w : list ascii) :
  Forall (λ w : list ascii, length w = L) words →
  length guess = L →
  w ∈ words →
  ∃ feedback pruned,
    give_feedback w guess = Ok feedback
    ∧ prune words guess feedback = Ok pruned
    ∧ w ∈ pruned.
Proof.
  intros Hws <- Hw. exists (feedback_of w guess). eexists. split_and!.
  - apply give_feedback_closed.
  - apply prune_filter; [|done|apply feedback_of_values].
    rewrite length_feedback_of.
    rewrite (proj1 (Forall_forall _ _) Hws w Hw). lia.
  - apply list_elem_of_filter. split; [apply give_feedback_closed|done].
Qed.

Lemma prune_keeps_the_word_witness :
  ∃ feedback pruned,
    give_feedback (str "EX") (str "EE") = Ok feedback
    ∧ prune [str "EE"; str "EX"; str "XE"] (str "EE") feedback = Ok pruned
    ∧ str "EX" ∈ pruned.
Proof.
  apply (prune_keeps_the_word 2).
  - Forall_literal; reflexivity.
  - reflexivity.
  - right. left.
Defined.

Lemma bind_Ok_or_IndexError {A B : Type} (r : result A) (k : A → result B) :
  Ok_or_IndexError r → (∀ a, Ok_or_IndexError (k a)) →
  Ok_or_IndexError (bind r k).
Proof. destruct r as [a|[]|]; simpl; auto. Qed.

Lemma index_Ok_or_IndexError {A : Type} (s : list A) i :
  Ok_or_IndexError (index s i).
Proof. unfold index. by destruct (s !! i). Qed.

Lemma filter_result_Ok_or_IndexError {A : Type} (cond : A → result bool)
    words :
  (∀ w, Ok_or_IndexError (cond w)) →
  Ok_or_IndexError (filter_result cond words).
Proof.
  intros Hcond. induction words as [|w words IH]; [done|]. simpl.
  apply bind_Ok_or_IndexError; [done|]. intros b.
  apply bind_Ok_or_IndexError; done.
Qed.

Lemma prune_filter_loop_Ok_or_IndexError i pairs words :
  Forall (λ p, p.2 ≠ HERE) pairs →
  Ok_or_IndexError (prune_filter_loop i pairs words).
Proof.
  intros Hpairs. revert i words.
  induction Hpairs as [|[letter result] pairs Hne _ IH]; intros i words;
    [done|].
  simpl in *. rewrite decide_False by done.
  apply bind_Ok_or_IndexError; [by case_decide|]. intros words1.
  apply bind_Ok_or_IndexError; [|done].
  case_decide; [|done]. apply filter_result_Ok_or_IndexError. intros w.
  case_decide; [|done].
  apply bind_Ok_or_IndexError; [apply index_Ok_or_IndexError|done].
Qed.

Lemma prune_fuel_Ok_or_IndexError fuel words guess feedback :
  length guess `min` length feedback < fuel →
  Ok_or_IndexError (prune_fuel fuel words guess feedback).
Proof.
  revert words guess feedback.
  induction fuel as [|fuel IH]; intros words guess feedback ?; [lia|].
  simpl.
  destruct (first_split (λ p : ascii * ascii, p.2 = HERE) (zip guess feedback))
    as [Hno|(ps1 & [letter r] & ps2 & Hz & Hno & Hr)].
  - rewrite prune_here_loop_no_here by done.
    by apply prune_filter_loop_Ok_or_IndexError.
  - simpl in Hr. subst r. rewrite Hz.
    rewrite prune_here_loop_here by done. simpl.
    apply zip_split_lookup in Hz as [Hg Hf]. simpl in Hg, Hf.
    apply lookup_lt_Some in Hg, Hf.
    apply bind_Ok_or_IndexError.
    + apply filter_result_Ok_or_IndexError. intros w.
      apply bind_Ok_or_IndexError; [apply index_Ok_or_IndexError|done].
    + intros consistent. apply bind_Ok_or_IndexError; [|done].
      apply IH. rewrite !length_cut by done. lia.
Qed.

(** X8: [prune] raises nothing but [IndexError]: in particular the assertion of
    its second loop never fails, whatever the arguments. *)
Theorem prune_raises_only_IndexError (words : list (list ascii))
    (guess feedback : list ascii) :
  (∃ pruned, prune words guess feedback = Ok pruned)
  ∨ prune words guess feedback = Raise IndexError.
Proof.
  pose proof (prune_fuel_Ok_or_IndexError (S (length guess)) words guess
    feedback) as H. unfold prune.
  destruct (prune_fuel _ _ _ _) as [pruned|[]|]; simpl in H;
    try (exfalso; apply H; lia); eauto.
Qed.

Lemma filter_result_Raise {A : Type} (cond : A → result bool) words w e :
  (∀ w', (∃ b, cond w' = Ok b) ∨ cond w' = Raise e) →
  w ∈ words → cond w = Raise e →
  filter_result cond words = Raise e.
Proof.
  intros Hcond Hw Hraise.
  induction Hw as [w words|w w' words Hw IH]; simpl.
  - by rewrite Hraise.
  - destruct (Hcond w') as [[b ->]| ->]; [|done]. simpl. by rewrite IH.
Qed.

(** X9: [prune] raises [IndexError] when the feedback holds a [HERE], the first
    one at a position of the guess, and some word of the collection is too
    short to have this position. *)
Theorem prune_IndexError_on_short_word (words : list (list ascii))
    (guess feedback w : list ascii) (i : nat) :
  feedback !! i = Some HERE →
  (∀ j, j < i → feedback !! j ≠ Some HERE) →
  i < length guess →
  w ∈ words →
  length w ≤ i →
  prune words guess feedback = Raise IndexError.
Proof.
  intros Hf Hfirst Hi Hw Hshort.
  destruct (lookup_lt_is_Some_2 guess i Hi) as [letter Hg].
  assert (zip guess feedback !! i = Some (letter, HERE)) as Hz.
  { rewrite lookup_zip_with, Hg. simpl. by rewrite Hf. }
  assert (length (take i (zip guess feedback)) = i) as Hlen.
  { rewrite length_take. apply lookup_lt_Some in Hz. lia. }
  unfold prune. simpl.
  rewrite <- (take_drop_middle _ _ _ Hz).
  rewrite prune_here_loop_here.
  - rewrite Hlen. simpl.
    rewrite (filter_result_Raise _ words w IndexError); [done| |done|].
    + intros w'. unfold index. destruct (w' !! i); simpl; eauto.
    + unfold index. by rewrite (proj2 (lookup_ge_None w i)).
  - apply Forall_lookup. intros j [gl r] Hj. simpl.
    apply lookup_take_Some in Hj as [Hj Hji].
    apply lookup_zip_with_Some in Hj as (? & ? & [= <- <-] & _ & Hr).
    intros ->. by apply (Hfirst j).
Qed.

Lemma prune_IndexError_on_short_word_witness :
  prune [str "AABC"; str "AB"] (str "ABCD") (str "eehh") = Raise IndexError.
Proof.
  apply (prune_IndexError_on_short_word _ _ _ (str "AB") 2).
  - reflexivity.
  - intros [|[|j]] Hj; [discriminate..|lia].
  - simpl. lia.
  - right. left.
  - simpl. lia.
Defined.

Lemma prune_filter_loop_nil i pairs :
  Forall (λ p, p.2 ≠ HERE) pairs → prune_filter_loop i pairs [] = Ok [].
Proof.
  intros Hpairs. revert i.
  induction Hpairs as [|[letter result] pairs Hne _ IH]; intros i; [done|].
  simpl in *. rewrite decide_False by done.
  destruct (decide (result = NOWHERE)); simpl;
    destruct (decide (result = ELSEWHERE)); simpl; apply IH.
Qed.

Lemma prune_fuel_nil fuel guess feedback :
  length guess `min` length feedback < fuel →
  prune_fuel fuel [] guess feedback = Ok [].
Proof.
  revert guess feedback.
  induction fuel as [|fuel IH]; intros guess feedback ?; [lia|]. simpl.
  destruct (first_split (λ p : ascii * ascii, p.2 = HERE) (zip guess feedback))
    as [Hno|(ps1 & [letter r] & ps2 & Hz & Hno & Hr)].
  - rewrite prune_here_loop_no_here by done. by apply prune_filter_loop_nil.
  - simpl in Hr. subst r. rewrite Hz.
    rewrite prune_here_loop_here by done. simpl.
    apply zip_split_lookup in Hz as [Hg Hf]. simpl in Hg, Hf.
    apply lookup_lt_Some in Hg, Hf.
    rewrite IH; [done|]. rewrite !length_cut by done. lia.
Qed.

(** X10: With no word to prune, [prune] returns the empty list, whatever the
    guess and the feedback. *)
Theorem prune_no_words (guess feedback : list ascii) :
  prune [] guess feedback = Ok [].
Proof. apply prune_fuel_nil. lia. Qed.

(** X11: Pruning by two guesses and their feedbacks, all of one length, gives
    the same words in either order. *)
Theorem prune_commutes (L : nat) (words : list (list ascii))
    (guess1 feedback1 guess2 feedback2 : list ascii) :
  Forall (λ w : list ascii, length w = L) words →
  length guess1 = L → length feedback1 = L → Forall feedback_value feedback1 →
  length guess2 = L → length feedback2 = L → Forall feedback_value feedback2 →
  (pruned <- prune words guess1 feedback1 ;; prune pruned guess2 feedback2)
  = (pruned <- prune words guess2 feedback2 ;; prune pruned guess1 feedback1).
Proof.
  intros Hws Hg1 Hf1 Hv1 Hg2 Hf2 Hv2.
  assert (∀ P `{!∀ w, Decision (P w)} n,
    Forall (λ w : list ascii, length w = n) words →
    Forall (λ w : list ascii, length w = n) (filter P words)) as Hfilter.
  { intros P ? n Hn. apply Forall_forall.
    intros w [_ Hw]%list_elem_of_filter.
    by apply (proj1 (Forall_forall _ _) Hn). }
  rewrite (prune_filter words guess1), (prune_filter words guess2);
    [|congruence|by rewrite Hg2|done|congruence|by rewrite Hg1|done].
  simpl. rewrite !prune_filter;
    [|congruence|apply Hfilter; by rewrite Hg1|done
     |congruence|apply Hfilter; by rewrite Hg2|done].
  f_equal. rewrite !list_filter_filter. apply list_filter_iff. tauto.
Qed.

Lemma prune_commutes_witness :
  (pruned <- prune [str "AABC"; str "ABCD"; str "DCBA"; str "ABDC"]
               (str "ABCD") (str "hhee") ;;
   prune pruned (str "ABXX") (str "hhnn"))
  = (pruned <- prune [str "AABC"; str "ABCD"; str "DCBA"; str "ABDC"]
                 (str "ABXX") (str "hhnn") ;;
     prune pruned (str "ABCD") (str "hhee")).
Proof.
  apply (prune_commutes 4); try reflexivity;
    Forall_literal; unfold feedback_value; auto.
Defined.

(** On these words each pruning alone keeps more than both together: the
    first keeps ABDC, the second ABCD and ABDC, and either order ends
    with ABDC. *)
Example prune_commutes_steps :
  prune [str "AABC"; str "ABCD"; str "DCBA"; str "ABDC"]
    (str "ABCD") (str "hhee") = Ok [str "ABDC"]
  ∧ prune [str "AABC"; str "ABCD"; str "DCBA"; str "ABDC"]
      (str "ABXX") (str "hhnn") = Ok [str "ABCD"; str "ABDC"]
  ∧ (pruned <- prune [str "AABC"; str "ABCD"; str "DCBA"; str "ABDC"]
                 (str "ABXX") (str "hhnn") ;;
     prune pruned (str "ABCD") (str "hhee")) = Ok [str "ABDC"].
Proof. vm_compute. done. Qed.

Lemma prune_all_HERE_filter (words : list (list ascii)) (guess : list ascii) :
  Forall (λ w : list ascii, length w = length guess) words →
  prune words guess (replicate (length guess) HERE)
  = Ok (filter (λ w, w = guess) words).
Proof.
  intros Hws. rewrite prune_filter.
  - f_equal. apply filter_in_iff. intros w Hw.
    apply give_feedback_all_HERE_iff.
    by apply (proj1 (Forall_forall _ _) Hws).
  - by rewrite length_replicate.
  - done.
  - apply Forall_forall. intros r Hr%elem_of_replicate. left. apply Hr.
Qed.

(** X12: With [HERE] at every position, [prune] keeps the occurrences of the
    guess among the words, all of its length. *)
Theorem prune_all_HERE (words : list (list ascii)) (guess : list ascii) :
  Forall (λ w : list ascii, length w = length guess) words →
  prune words guess (replicate (length guess) HERE)
  = Ok (filter (λ w, w = guess) words).
Proof. apply prune_all_HERE_filter. Qed.

Lemma prune_all_HERE_witness :
  prune [str "AABC"; str "ABCD"; str "DCBA"] (str "ABCD")
    (replicate (length (str "ABCD")) HERE)
  = Ok (filter (λ w, w = str "ABCD") [str "AABC"; str "ABCD"; str "DCBA"]).
Proof. apply prune_all_HERE. Forall_literal; reflexivity. Defined.

(** ** [guess_greedy] *)

Lemma sum_list_with_le {A : Type} (f : A → nat) (n : nat) (l : list A) :
  (∀ x, x ∈ l → f x ≤ n) → sum_list_with f l ≤ n * length l.
Proof.
  induction l as [|x l IH]; intros Hle; simpl; [lia|].
  assert (f x ≤ n) by (apply Hle; by left).
  assert (sum_list_with f l ≤ n * length l)
    by (apply IH; intros; apply Hle; by right).
  lia.
Qed.

Lemma sum_list_with_ge {A : Type} (f : A → nat) (n : nat) (l : list A) :
  (∀ x, x ∈ l → n ≤ f x) → n * length l ≤ sum_list_with f l.
Proof.
  induction l as [|x l IH]; intros Hle; simpl; [lia|].
  assert (n ≤ f x) by (apply Hle; by left).
  assert (n * length l ≤ sum_list_with f l)
    by (apply IH; intros; apply Hle; by right).
  lia.
Qed.

Lemma sum_list_with_lt {A : Type} (f : A → nat) (n : nat) (l : list A) x :
  (∀ y, y ∈ l → f y ≤ n) → x ∈ l → f x < n →
  sum_list_with f l < n * length l.
Proof.
  intros Hle Hx Hlt. induction Hx as [x l|x y l Hx IH]; simpl.
  - assert (sum_list_with f l ≤ n * length l)
      by (apply sum_list_with_le; intros; apply Hle; by right).
    lia.
  - assert (f y ≤ n) by (apply Hle; by left).
    assert (sum_list_with f l < n * length l)
      by (apply IH; [intros; apply Hle; by right|done]).
    lia.
Qed.

Lemma score_le words guess : score words guess ≤ length words * length words.
Proof.
  unfold score. apply sum_list_with_le. intros w _. apply length_filter.
Qed.

Lemma score_ge words guess : length words ≤ score words guess.
Proof.
  unfold score. rewrite <- (Nat.mul_1_l (length words)) at 1.
  apply sum_list_with_ge. intros w Hw.
  assert (w ∈ same_feedback words guess w) as Hin
    by by apply list_elem_of_filter.
  destruct (same_feedback words guess w); [by apply elem_of_nil in Hin|].
  simpl. lia.
Qed.

(** A guess among the words tells itself from any other word. *)
Lemma score_lt words w w' :
  w ∈ words → w' ∈ words → w' ≠ w → length w' = length w →
  score words w < length words * length words.
Proof.
  intros Hw Hw' Hne Hlen. unfold score.
  apply (sum_list_with_lt _ _ _ w); [|done|].
  - intros y _. apply length_filter.
  - apply length_filter_lt with w'; [done|].
    unfold feedback_of at 2. rewrite zip_with_mark_same.
    by rewrite feedback_of_all_HERE.
Qed.

Section selection_facts.
Variables (L : nat) (words : list (list ascii)).
Hypothesis words_length : Forall (λ w : list ascii, length w = L) words.

(** What the loop over the guesses computes: the least of [minval] and the
    scores, with a guess that reaches it when it is below [minval]. *)
Lemma guess_loop_naive_minimum guesses minval argmin :
  Forall (λ g : list ascii, length g = L) guesses →
  ∃ minval' argmin',
    guess_loop_naive words guesses minval argmin = Ok (minval', argmin')
    ∧ minval' ≤ minval
    ∧ (∀ g, g ∈ guesses → minval' ≤ score words g)
    ∧ (minval' = minval ∧ argmin' = argmin
       ∨ minval' < minval
         ∧ ∃ g, g ∈ guesses ∧ argmin' = Some g ∧ score words g = minval').
Proof.
  intros Hgs. revert minval argmin.
  induction Hgs as [|guess guesses Hg _ IH]; intros minval argmin.
  - exists minval, argmin. split_and!; [done..| |by left].
    by intros g ?%elem_of_nil.
  - rewrite (guess_loop_naive_unfold L) by done. case_decide as Hlt.
    + destruct (IH (score words guess) (Some guess))
        as (minval' & argmin' & -> & Hle & Hall & Hsel).
      exists minval', argmin'. split_and!; [done|lia| |].
      * intros g [->|Hin]%elem_of_cons; [done|by apply Hall].
      * right. split; [lia|].
        destruct Hsel as [[-> ->]|[_ (g & Hin & -> & Hscore)]].
        -- exists guess. split_and!; [by left|done..].
        -- exists g. split_and!; [by right|done..].
    + destruct (IH minval argmin)
        as (minval' & argmin' & -> & Hle & Hall & Hsel).
      exists minval', argmin'. split_and!; [done..| |].
      * intros g [->|Hin]%elem_of_cons; [lia|by apply Hall].
      * destruct Hsel as [?|[? (g & Hin & -> & Hscore)]]; [by left|].
        right. split; [done|]. exists g. split_and!; [by right|done..].
Qed.
End selection_facts.

(** X14: For words and guesses of one length, [guess_greedy] reports the least
    score of the guesses, capped by the square of the number of words, and
    returns a guess of the pool that has this score when it is below the
    cap, [None] when no guess is below it.  The score of a guess is the sum,
    over the words, of the number of words with the same feedback. *)
Theorem guess_greedy_minimum (L : nat) (words guesses : list (list ascii)) :
  words ≠ [] →
  Forall (λ w : list ascii, length w = L) words →
  Forall (λ g : list ascii, length g = L) guesses →
  ∃ argmin minval,
    guess_greedy words guesses
    = Ok (argmin, expected_size minval (length words))
    ∧ (∀ g, g ∈ guesses → minval ≤ score words g)
    ∧ match argmin with
      | Some g =>
          g ∈ guesses ∧ score words g = minval
          ∧ minval < length words * length words
      | None => minval = length words * length words
      end.
Proof.
  intros Hne Hws Hgs. unfold guess_greedy.
  rewrite (guess_loop_early_exit L) by done.
  destruct (guess_loop_naive_minimum L words Hws guesses
    (length words * length words) None Hgs)
    as (minval & argmin & -> & Hle & Hall & Hsel).
  exists argmin, minval. simpl. unfold format_message.
  rewrite decide_False by by destruct words.
  split_and!; [done..|].
  destruct Hsel as [[-> ->]|[? (g & Hin & -> & Hscore)]]; done.
Qed.

Lemma guess_greedy_minimum_witness :
  ∃ argmin minval,
    guess_greedy [str "AB"; str "CD"] [str "XY"; str "AX"; str "CX"]
    = Ok (argmin, expected_size minval (length [str "AB"; str "CD"]))
    ∧ (∀ g, g ∈ [str "XY"; str "AX"; str "CX"] →
         minval ≤ score [str "AB"; str "CD"] g)
    ∧ match argmin with
      | Some g =>
          g ∈ [str "XY"; str "AX"; str "CX"]
          ∧ score [str "AB"; str "CD"] g = minval
          ∧ minval < length [str "AB"; str "CD"] * length [str "AB"; str "CD"]
      | None =>
          minval = length [str "AB"; str "CD"] * length [str "AB"; str "CD"]
      end.
Proof.
  apply (guess_greedy_minimum 2); [discriminate|..];
    Forall_literal; reflexivity.
Defined.

(** X15: The size that [guess_greedy] reports is at least one word and at most
    all of them: [minval] lies between the number of words and its square. *)
Theorem guess_greedy_minval_bounds (L : nat)
    (words guesses : list (list ascii)) argmin minval N :
  Forall (λ w : list ascii, length w = L) words →
  Forall (λ g : list ascii, length g = L) guesses →
  guess_greedy words guesses = Ok (argmin, expected_size minval N) →
  N = length words ∧ N ≤ minval ≤ N * N.
Proof.
  intros Hws Hgs. unfold guess_greedy.
  rewrite (guess_loop_early_exit L) by done.
  destruct (guess_loop_naive_minimum L words Hws guesses
    (length words * length words) None Hgs)
    as (minval' & argmin' & -> & Hle & Hall & Hsel).
  simpl. unfold format_message. case_decide as HN; [done|].
  intros [= <- <- <-]. split; [done|]. split; [|done].
  destruct Hsel as [[-> _]|[_ (g & _ & _ & <-)]]; [nia|apply score_ge].
Qed.

Lemma guess_greedy_minval_bounds_witness :
  2 = length [str "AB"; str "CD"] ∧ 2 ≤ 2 ≤ 2 * 2.
Proof.
  apply (guess_greedy_minval_bounds 2 [str "AB"; str "CD"]
    [str "XY"; str "AX"; str "CX"] (Some (str "AX")) 2 2).
  - Forall_literal; reflexivity.
  - Forall_literal; reflexivity.
  - vm_compute. reflexivity.
Defined.

Lemma guess_loop_no_words guesses :
  guess_loop [] guesses 0 None = Ok (0, None).
Proof. induction guesses as [|guess guesses IH]; [done|]. simpl. apply IH. Qed.

(** X16: With no words, [guess_greedy] fails on the division by their number,
    whatever the guesses. *)
Theorem guess_greedy_no_words (guesses : list (list ascii)) :
  guess_greedy [] guesses = Raise ZeroDivisionError.
Proof. unfold guess_greedy. simpl. by rewrite guess_loop_no_words. Qed.

Lemma guess_greedy_Some (L : nat) (words guesses : list (list ascii))
    (w w' : list ascii) :
  Forall (λ w : list ascii, length w = L) words →
  Forall (λ g : list ascii, length g = L) guesses →
  w ∈ words → w ∈ guesses → w' ∈ words → w' ≠ w →
  ∃ g minval,
    guess_greedy words guesses = Ok (Some g, expected_size minval (length words))
    ∧ g ∈ guesses.
Proof.
  intros Hws Hgs Hw Hwg Hw' Hne. unfold guess_greedy.
  rewrite (guess_loop_early_exit L) by done.
  destruct (guess_loop_naive_minimum L words Hws guesses
    (length words * length words) None Hgs)
    as (minval & argmin & -> & Hle & Hall & Hsel).
  simpl. unfold format_message.
  rewrite decide_False by (intros Hnil; destruct words; [|done];
    by apply elem_of_nil in Hw).
  destruct Hsel as [[-> _]|[_ (g & Hin & -> & _)]].
  - specialize (Hall w Hwg).
    pose proof (score_lt words w w' Hw Hw' Hne) as Hlt.
    rewrite (proj1 (Forall_forall _ _) Hws w Hw),
      (proj1 (Forall_forall _ _) Hws w' Hw') in Hlt.
    specialize (Hlt eq_refl). lia.
  - by exists g, minval.
Qed.

(** X17: When the pool holds one of the words and the words, all of the length
    of the guesses, hold another one, [guess_greedy] does select a guess: it
    does so for two or more distinct possibilities, with the possibilities or
    a dictionary that contains them as the pool. *)
Theorem guess_greedy_selects (L : nat) (words guesses : list (list ascii))
    (w w' : list ascii) :
  Forall (λ w : list ascii, length w = L) words →
  Forall (λ g : list ascii, length g = L) guesses →
  w ∈ words → w ∈ guesses → w' ∈ words → w' ≠ w →
  ∃ g minval,
    guess_greedy words guesses = Ok (Some g, expected_size minval (length words))
    ∧ g ∈ guesses.
Proof. apply guess_greedy_Some. Qed.

Lemma guess_greedy_selects_witness :
  ∃ g minval,
    guess_greedy [str "AB"; str "CD"] [str "XY"; str "CD"]
    = Ok (Some g, expected_size minval (length [str "AB"; str "CD"]))
    ∧ g ∈ [str "XY"; str "CD"].
Proof.
  apply (guess_greedy_selects 2 _ _ (str "CD") (str "AB")).
  - Forall_literal; reflexivity.
  - Forall_literal; reflexivity.
  - right. left.
  - right. left.
  - left.
  - discriminate.
Defined.

(** X18: Among guesses of equal score the earlier one wins when the score
    is below the initial bound: for words and guesses of one length,
    [guess_greedy] returns the first guess of the pool whose score is the
    least, with this score, provided it is below the square of the number
    of words. *)
Theorem guess_greedy_earliest_minimum (L : nat) (words : list (list ascii))
    (before : list (list ascii)) (guess : list ascii)
    (after : list (list ascii)) :
  Forall (λ w : list ascii, length w = L) words →
  Forall (λ g : list ascii, length g = L) (before ++ guess :: after) →
  score words guess < length words * length words →
  (∀ g, g ∈ before → score words guess < score words g) →
  (∀ g, g ∈ after → score words guess ≤ score words g) →
  guess_greedy words (before ++ guess :: after)
  = Ok (Some guess, expected_size (score words guess) (length words)).
Proof. apply guess_greedy_first_minimum. Qed.

Lemma guess_greedy_earliest_minimum_witness :
  guess_greedy [str "AB"; str "CD"] ([str "XY"] ++ str "AX" :: [str "CX"])
  = Ok (Some (str "AX"),
        expected_size (score [str "AB"; str "CD"] (str "AX"))
          (length [str "AB"; str "CD"])).
Proof.
  apply (guess_greedy_earliest_minimum 2).
  - Forall_literal; reflexivity.
  - Forall_literal; reflexivity.
  - vm_compute. lia.
  - intros g ->%list_elem_of_singleton. vm_compute. lia.
  - intros g ->%list_elem_of_singleton. vm_compute. lia.
Defined.

(** ** [loop] and [main] *)

Lemma then_print {B : Type} (x : printed) (k : unit → prog B) (w : world) :
  then_ (print x) k w = k tt (World (stdin w) (stdout w ++ [x])).
Proof. reflexivity. Qed.

Lemma then_call_Ok {A B : Type} (r : result A) (a : A) (k : A → prog B)
    (w : world) :
  r = Ok a → then_ (call r) k w = k a w.
Proof. by intros ->. Qed.

Lemma then_call_Raise {A B : Type} (r : result A) (e : exn) (k : A → prog B)
    (w : world) :
  r = Raise e → then_ (call r) k w = (w, Raises (Exn e)).
Proof. by intros ->. Qed.

Lemma loop_rounds_S ALL_WORDS guesser feedbacker hard N rounds i words g msg :
  loop_rounds ALL_WORDS guesser feedbacker hard N (S rounds) i words g msg
  = (_ <~ print (guess_line g msg) ;;
     f <~ feedbacker g ;;
     words <~ prune_guess words g f ;;
     if decide (length words = 0) then raise AllPossibilitiesEliminated
     else if decide (length words = 1) then
       w <~ call (index words 0) ;;
       print (solution_line (i + 1) w)
     else
       _ <~ print (possibilities_lines (length words) words) ;;
       let guesses := if hard then words else ALL_WORDS in
       r <~ call (guesser words guesses) ;;
       let '(g, msg) := r in
       loop_rounds ALL_WORDS guesser feedbacker hard N rounds (S i) words g
         (guesser_message msg)).
Proof. reflexivity. Qed.

Lemma NoDup_two {A : Type} (l : list A) :
  NoDup l → 2 ≤ length l → ∃ a b, a ∈ l ∧ b ∈ l ∧ b ≠ a.
Proof.
  destruct l as [|a [|b l]]; simpl; [lia..|].
  intros [Ha _]%NoDup_cons _. exists a, b. split_and!.
  - by left.
  - right. by left.
  - intros ->. apply Ha. by left.
Qed.

Lemma singleton_of_elem {A : Type} (l : list A) (x : A) :
  x ∈ l → length l = 1 → l = [x].
Proof.
  destruct l as [|y [|z l]]; simpl; [lia| |lia].
  by intros ->%list_elem_of_singleton.
Qed.

Lemma filter_none {A : Type} (P : A → Prop) `{!∀ x, Decision (P x)}
    (l : list A) :
  (∀ x, x ∈ l → ¬ P x) → filter P l = [].
Proof.
  induction l as [|x l IH]; intros Hnone; [done|].
  rewrite filter_cons_False by (apply Hnone; by left).
  apply IH. intros; apply Hnone; by right.
Qed.

Lemma filter_eq_NoDup {A : Type} `{EqDecision A} (l : list A) (x : A) :
  NoDup l → x ∈ l → filter (λ y, y = x) l = [x].
Proof.
  induction 1 as [|y l Hy Hnd IH]; [by intros ?%elem_of_nil|].
  rewrite filter_cons. intros [->|Hx]%elem_of_cons.
  - rewrite decide_True by done. f_equal.
    apply filter_none. by intros z Hz ->.
  - rewrite decide_False by (by intros ->). by apply IH.
Qed.

Lemma initial_guess_in (words : list (list ascii)) :
  words ≠ [] → ∃ g, initial_guess words = Ok g ∧ g ∈ words.
Proof.
  intros Hne. unfold initial_guess.
  destruct words as [|w0 ws] eqn:Hwords; [done|]. rewrite <- Hwords.
  destruct (py_max_loop_first (coverage words) w0 ws) as (k & Hk & _).
  exists (py_max_loop (coverage words) w0 ws). split.
  - by rewrite Hwords at 1.
  - rewrite Hwords at 2. by apply list_elem_of_lookup_2 with k.
Qed.

Section known_word.
Variables (ALL_WORDS : list (list ascii)) (L : nat) (target : list ascii).
Hypothesis dictionary_length :
  Forall (λ w : list ascii, length w = L) ALL_WORDS.
Hypothesis dictionary_NoDup : NoDup ALL_WORDS.
Hypothesis target_known : target ∈ ALL_WORDS.

Lemma sublist_dictionary_length (words : list (list ascii)) :
  words `sublist_of` ALL_WORDS →
  Forall (λ w : list ascii, length w = L) words.
Proof.
  intros Hsub. apply Forall_forall. intros w Hw.
  apply (proj1 (Forall_forall _ _) dictionary_length).
  by apply elem_of_sublist with words.
Qed.

(** One pruning by the feedback of the known word. *)
Lemma prune_known_word (words : list (list ascii)) (guess : list ascii) :
  words `sublist_of` ALL_WORDS → guess ∈ ALL_WORDS →
  prune words guess (feedback_of target guess)
  = Ok (same_feedback words guess target).
Proof.
  intros Hsub Hg.
  pose proof (proj1 (Forall_forall _ _) dictionary_length _ Hg) as HgL.
  pose proof (proj1 (Forall_forall _ _) dictionary_length _ target_known)
    as HtL.
  simpl in HgL, HtL. unfold prune. rewrite prune_fuel_filter; [done|lia| | |].
  - rewrite length_feedback_of. lia.
  - rewrite HgL. by apply sublist_dictionary_length.
  - apply feedback_of_values.
Qed.

(** The rounds of [loop], from a state in which the words are part of the
    dictionary and hold the known word, and the guess is in the dictionary. *)
Lemma loop_rounds_known_word (hard : bool) (N rounds i : nat)
    (words : list (list ascii)) (g : list ascii) (msg : guess_message)
    (w : world) :
  i + rounds = N →
  words `sublist_of` ALL_WORDS → target ∈ words → g ∈ ALL_WORDS →
  ∃ events,
    loop_rounds ALL_WORDS guess_greedy (known_word_feedback target) hard
      N rounds i words (Some g) msg w
    = (World (stdin w) (stdout w ++ events), Returns tt)
    ∧ match rounds with
      | 0 => events = [giving_up_lines N words]
      | S _ =>
          known_word_trace ALL_WORDS target N i words events
      end.
Proof.
  revert i words g msg w.
  induction rounds as [|rounds IH]; intros i words g msg w HN Hsub Ht Hg.
  { eexists. split; [reflexivity|done]. }
  cbn [loop_rounds]. rewrite then_print.
  change (known_word_feedback target (Some g))
    with (call (give_feedback target g)).
  rewrite (then_call_Ok _ _ _ _ (give_feedback_closed target g)).
  unfold prune_guess.
  rewrite (then_call_Ok _ _ _ _ (prune_known_word words g Hsub Hg)).
  set (words' := same_feedback words g target).
  assert (words' `sublist_of` words) as Hsub' by apply sublist_filter.
  assert (target ∈ words') as Ht' by by apply list_elem_of_filter.
  assert (words' `sublist_of` ALL_WORDS) as HsubD by by etrans.
  rewrite decide_False
    by (destruct words'; [by apply elem_of_nil in Ht'|done]).
  destruct (decide (length words' = 1)) as [Hone|Hmany].
  - rewrite (singleton_of_elem _ _ Ht' Hone). simpl.
    eexists. split.
    + unfold then_, ret, print. simpl. by rewrite <- app_assoc.
    + apply trace_solution; [lia|done].
  - rewrite then_print.
    assert (2 ≤ length words') as Htwo.
    { destruct words' as [|? [|? ?]]; simpl in *;
        [by apply elem_of_nil in Ht'|done|lia]. }
    destruct (NoDup_two words') as (a & b & Ha & Hb & Hab); [|done|].
    { by apply sublist_NoDup with ALL_WORDS. }
    set (guesses := if hard then words' else ALL_WORDS).
    assert (guesses ⊆ ALL_WORDS) as Hpool.
    { unfold guesses. destruct hard; [by apply sublist_subseteq|done]. }
    assert (a ∈ guesses) as Hag.
    { unfold guesses. destruct hard; [done|].
      by apply elem_of_sublist with words'. }
    destruct (guess_greedy_Some L words' guesses a b)
      as (g' & minval & Hguess & Hg'); [..|done|done|done|done| ].
    { by apply sublist_dictionary_length. }
    { apply Forall_forall. intros x Hx.
      apply (proj1 (Forall_forall _ _) dictionary_length). by apply Hpool. }
    rewrite (then_call_Ok _ _ _ _ Hguess). cbn [stdin stdout].
    destruct (IH (S i) words' g' (guesser_message
      (expected_size minval (length words')))
      (World (stdin w) ((stdout w ++ [guess_line (Some g) msg])
         ++ [possibilities_lines (length words') words'])))
      as (events & -> & Hevents); [lia|done|done|by apply Hpool|].
    simpl. eexists. split.
    + by rewrite <- !app_assoc.
    + simpl. apply trace_round; [lia|done..|].
      destruct rounds; [|done]. subst events.
      replace (S i) with N by lia. by apply trace_giving_up.
Qed.

Lemma loop_known_word_run (hard : bool) (w : world) :
  ∃ events,
    loop ALL_WORDS guess_greedy (known_word_feedback target) hard ALL_WORDS w
    = (World (stdin w) (stdout w ++ events), Returns tt)
    ∧ known_word_trace ALL_WORDS target 10 0 ALL_WORDS events.
Proof.
  destruct (initial_guess_in ALL_WORDS) as (g & Hmax & Hg).
  { intros Hnil. pose proof target_known as Ht. rewrite Hnil in Ht.
    by apply elem_of_nil in Ht. }
  unfold loop. rewrite (then_call_Ok _ _ _ _ Hmax).
  by apply (loop_rounds_known_word hard 10 10 0).
Qed.

Lemma main_known_word_run (argv : list (list ascii)) (w : world) :
  argv !! 1 = Some target →
  ∃ events,
    main ALL_WORDS argv w
    = (World (stdin w) (stdout w ++ events), Returns tt)
    ∧ known_word_trace ALL_WORDS target 10 0 ALL_WORDS events.
Proof.
  intros Hargv. unfold main.
  rewrite decide_True by (by apply lookup_lt_Some in Hargv).
  unfold index. rewrite Hargv. apply loop_known_word_run.
Qed.

Lemma known_word_trace_last N i words events :
  known_word_trace ALL_WORDS target N i words events →
  words `sublist_of` ALL_WORDS →
  ∃ before last,
    events = before ++ [last]
    ∧ ((∃ n, last = solution_line n target ∧ i < n ≤ N)
       ∨ (∃ ws, last = giving_up_lines N ws
                ∧ target ∈ ws ∧ ws `sublist_of` ALL_WORDS)).
Proof.
  induction 1 as [words Ht|i words g msg Hi Hg
    |i words g msg words' events Hi Hg Hsub Ht Htwo _ IH]; intros Hwords.
  - exists [], (giving_up_lines N words). split; [done|]. right. eauto.
  - exists [guess_line (Some g) msg], (solution_line (i + 1) target).
    split; [done|]. left. eexists. split; [done|lia].
  - destruct IH as (before & last & -> & Hlast); [by etrans|].
    eexists (_ :: _ :: before), last. split; [done|].
    destruct Hlast as [(n & -> & ?)|?]; [|by right].
    left. eexists. split; [done|lia].
Qed.

Lemma known_word_trace_guesses N i words events :
  known_word_trace ALL_WORDS target N i words events →
  length (filter (λ x, is_guess_line x) events) + i ≤ N.
Proof.
  induction 1 as [words Ht|i words g msg Hi Hg
    |i words g msg words' events Hi Hg Hsub Ht Htwo _ IH].
  - simpl. lia.
  - rewrite filter_cons_True by done. simpl. lia.
  - rewrite filter_cons_True, filter_cons_False by (simpl; auto).
    simpl. lia.
Qed.

Lemma known_word_trace_possibilities N i words events n ws :
  known_word_trace ALL_WORDS target N i words events →
  possibilities_lines n ws ∈ events →
  n = length ws ∧ 2 ≤ n ∧ target ∈ ws ∧ ws `sublist_of` words.
Proof.
  induction 1 as [words Ht|i words g msg Hi Hg
    |i words g msg words' events Hi Hg Hsub Ht Htwo _ IH].
  - by intros [=]%list_elem_of_singleton.
  - intros [[=]|[=]%list_elem_of_singleton]%elem_of_cons.
  - intros [[=]|[[= -> ->]|Hin]%elem_of_cons]%elem_of_cons; [done|].
    destruct (IH Hin) as (? & ? & ? & ?). split_and!; [done..|by etrans].
Qed.

(** X21: [loop] on the dictionary, with [guess_greedy] as the guesser and the
    feedback of a known word of the dictionary, the dictionary being made of
    distinct words of one length: in easy and in hard mode alike it raises
    nothing, reads nothing and prints rounds of one guess from the
    dictionary and of two or more possibilities, each list part of the one
    before and holding the word, until a guess leaves the word alone, which
    is printed as the solution, or ten guesses were made. *)
Theorem loop_known_word (hard : bool) (w : world) :
  ∃ events,
    loop ALL_WORDS guess_greedy (known_word_feedback target) hard ALL_WORDS w
    = (World (stdin w) (stdout w ++ events), Returns tt)
    ∧ known_word_trace ALL_WORDS target 10 0 ALL_WORDS events.
Proof. apply loop_known_word_run. Qed.

(** X22: [main] with a word of the dictionary on the command line returns without
    an exception, and the last thing it prints is this word as the solution,
    after ten guesses at most, or the possibilities it gives up with, which
    hold the word. *)
Theorem main_known_word_ends (argv : list (list ascii))
    (lines : list (list ascii)) :
  argv !! 1 = Some target →
  ∃ before last,
    main ALL_WORDS argv (World lines [])
    = (World lines (before ++ [last]), Returns tt)
    ∧ ((∃ n, last = solution_line n target ∧ 1 ≤ n ≤ 10)
       ∨ (∃ ws, last = giving_up_lines 10 ws
                ∧ target ∈ ws ∧ ws `sublist_of` ALL_WORDS)).
Proof.
  intros Hargv.
  destruct (main_known_word_run argv (World lines []) Hargv)
    as (events & -> & Htrace).
  destruct (known_word_trace_last _ _ _ _ Htrace)
    as (before & last & -> & Hlast); [done|].
  exists before, last. split; [done|].
  destruct Hlast as [(n & -> & ?)|?]; [|by right].
  left. exists n. split; [done|lia].
Qed.

(** X23: In such a run [main] prints ten guesses at most, and every list of
    possibilities it prints has two words or more, the known word among
    them. *)
Theorem main_known_word_possibilities (argv : list (list ascii))
    (lines lines' : list (list ascii)) (events : list printed)
    (e : ending unit) :
  argv !! 1 = Some target →
  main ALL_WORDS argv (World lines []) = (World lines' events, e) →
  length (filter (λ x, is_guess_line x) events) ≤ 10
  ∧ ∀ n ws, possibilities_lines n ws ∈ events →
      n = length ws ∧ 2 ≤ n ∧ target ∈ ws.
Proof.
  intros Hargv.
  destruct (main_known_word_run argv (World lines []) Hargv)
    as (events' & -> & Htrace).
  intros [= <- <- <-]. split.
  - pose proof (known_word_trace_guesses _ _ _ _ Htrace). simpl. lia.
  - intros n ws Hin.
    by destruct (known_word_trace_possibilities _ _ _ _ n ws Htrace Hin)
      as (? & ? & ? & _).
Qed.
End known_word.

Lemma loop_known_word_witness :
  ∃ events,
    loop [str "ABCD"; str "XBCD"; str "YBCD"; str "ABCE"]
      guess_greedy (known_word_feedback (str "YBCD")) true
      [str "ABCD"; str "XBCD"; str "YBCD"; str "ABCE"] (World [] [])
    = (World [] ([] ++ events), Returns tt)
    ∧ known_word_trace [str "ABCD"; str "XBCD"; str "YBCD"; str "ABCE"]
        (str "YBCD") 10 0
        [str "ABCD"; str "XBCD"; str "YBCD"; str "ABCE"] events.
Proof.
  apply (loop_known_word _ 4 (str "YBCD")).
  - Forall_literal; reflexivity.
  - apply (bool_decide_unpack _). vm_compute. exact I.
  - do 2 right. left.
Defined.

Lemma main_known_word_ends_witness :
  ∃ before last,
    main [str "ABCD"; str "XBCD"; str "YBCD"; str "ABCE"]
      [str "wordle.py"; str "YBCD"] (World [] [])
    = (World [] (before ++ [last]), Returns tt)
    ∧ ((∃ n, last = solution_line n (str "YBCD") ∧ 1 ≤ n ≤ 10)
       ∨ (∃ ws, last = giving_up_lines 10 ws
                ∧ str "YBCD" ∈ ws
                ∧ ws `sublist_of`
                    [str "ABCD"; str "XBCD"; str "YBCD"; str "ABCE"])).
Proof.
  apply (main_known_word_ends _ 4 (str "YBCD")).
  - Forall_literal; reflexivity.
  - apply (bool_decide_unpack _). vm_compute. exact I.
  - do 2 right. left.
  - reflexivity.
Defined.

Lemma main_known_word_possibilities_witness :
  length (filter (λ x, is_guess_line x)
    [guess_line (Some (str "ABCD")) heuristic_initial_guess;
     possibilities_lines 2 [str "XBCD"; str "YBCD"];
     guess_line (Some (str "XBCD")) (guesser_message (expected_size 2 2));
     solution_line 2 (str "YBCD")]) ≤ 10
  ∧ ∀ n ws,
      possibilities_lines n ws
      ∈ [guess_line (Some (str "ABCD")) heuristic_initial_guess;
         possibilities_lines 2 [str "XBCD"; str "YBCD"];
         guess_line (Some (str "XBCD")) (guesser_message (expected_size 2 2));
         solution_line 2 (str "YBCD")] →
      n = length ws ∧ 2 ≤ n ∧ str "YBCD" ∈ ws.
Proof.
  apply main_known_word_possibilities
    with (ALL_WORDS := [str "ABCD"; str "XBCD"; str "YBCD"; str "ABCE"])
         (L := 4) (argv := [str "wordle.py"; str "YBCD"])
         (lines := []) (lines' := []) (e := Returns tt).
  - Forall_literal; reflexivity.
  - apply (bool_decide_unpack _). vm_compute. exact I.
  - do 2 right. left.
  - reflexivity.
  - vm_compute. reflexivity.
Defined.

(** ** The manual mode and the empty dictionary *)

(** X25: With an empty dictionary [main] raises the [ValueError] of [max] before
    it prints or reads anything, with or without a word on the command
    line. *)
Theorem main_empty_dictionary (argv : list (list ascii)) (w : world) :
  main [] argv w = (w, Raises (Exn ValueError)).
Proof.
  unfold main. case_decide as Hargv; [|done].
  destruct (lookup_lt_is_Some_2 argv 1 Hargv) as [word Hword].
  unfold index. by rewrite Hword.
Qed.

Section manual.
Variables (ALL_WORDS : list (list ascii)) (argv : list (list ascii)).
Hypothesis dictionary_not_empty : ALL_WORDS ≠ [].
Hypothesis no_word_given : length argv ≤ 1.

Lemma main_manual_first_round (w : world) :
  ∃ g,
    initial_guess ALL_WORDS = Ok g ∧ g ∈ ALL_WORDS
    ∧ main ALL_WORDS argv w
      = loop_rounds ALL_WORDS guess_greedy manual_feedback false 10 10 0
          ALL_WORDS (Some g) heuristic_initial_guess w.
Proof.
  destruct (initial_guess_in ALL_WORDS dictionary_not_empty) as (g & Hg & Hin).
  exists g. split_and!; [done..|]. unfold main.
  rewrite decide_False by lia. unfold loop.
  by rewrite (then_call_Ok _ _ _ _ Hg).
Qed.

(** X26: Without a word on the command line and with nothing to read, [main]
    prints its first guess and the prompt, and ends on [EOFError]. *)
Theorem main_manual_no_input (out : list printed) :
  ∃ g,
    initial_guess ALL_WORDS = Ok g
    ∧ main ALL_WORDS argv (World [] out)
      = (World [] (out ++ [guess_line (Some g) heuristic_initial_guess;
                           enter_feedback_code]),
         Raises EOFError).
Proof.
  destruct (main_manual_first_round (World [] out)) as (g & Hg & _ & ->).
  exists g. split; [done|]. rewrite loop_rounds_S, then_print.
  unfold manual_feedback, input, then_, print. simpl.
  by rewrite <- app_assoc.
Qed.

(** X27: In the manual mode, when the dictionary is made of distinct words of
    one length and the feedback typed for the first guess is [h] at every
    position, [main] prints this guess as the solution after one guess and
    returns, the rest of the input unread. *)
Theorem main_manual_all_HERE (L : nat) (lines : list (list ascii))
    (out : list printed) :
  Forall (λ w : list ascii, length w = L) ALL_WORDS →
  NoDup ALL_WORDS →
  ∃ g,
    initial_guess ALL_WORDS = Ok g
    ∧ main ALL_WORDS argv (World (replicate L HERE :: lines) out)
      = (World lines (out ++ [guess_line (Some g) heuristic_initial_guess;
                              enter_feedback_code; solution_line 1 g]),
         Returns tt).
Proof.
  intros Hlen Hnd.
  destruct (main_manual_first_round (World (replicate L HERE :: lines) out))
    as (g & Hg & Hin & ->).
  exists g. split; [done|]. rewrite loop_rounds_S, then_print.
  assert (length g = L) as HgL
    by apply (proj1 (Forall_forall _ _) Hlen _ Hin).
  assert (prune ALL_WORDS g (replicate L HERE) = Ok [g]) as Hprune.
  { rewrite <- HgL, prune_all_HERE_filter by by rewrite HgL.
    by rewrite filter_eq_NoDup. }
  unfold manual_feedback, input, then_ at 1 2, print. simpl.
  unfold prune_guess. rewrite (then_call_Ok _ _ _ _ Hprune). simpl.
  unfold then_, ret, print. simpl. by rewrite <- !app_assoc.
Qed.
End manual.

Lemma main_manual_no_input_witness :
  ∃ g,
    initial_guess [str "AABC"; str "ABCD"; str "DCBA"] = Ok g
    ∧ main [str "AABC"; str "ABCD"; str "DCBA"] [str "wordle.py"]
        (World [] [])
      = (World [] ([] ++ [guess_line (Some g) heuristic_initial_guess;
                          enter_feedback_code]),
         Raises EOFError).
Proof.
  apply main_manual_no_input.
  - discriminate.
  - simpl. lia.
Defined.

Lemma main_manual_all_HERE_witness :
  ∃ g,
    initial_guess [str "AABC"; str "ABCD"; str "DCBA"] = Ok g
    ∧ main [str "AABC"; str "ABCD"; str "DCBA"] [str "wordle.py"]
        (World (replicate 4 HERE :: [str "nnnn"]) [])
      = (World [str "nnnn"]
           ([] ++ [guess_line (Some g) heuristic_initial_guess;
                   enter_feedback_code; solution_line 1 g]),
         Returns tt).
Proof.
  apply main_manual_all_HERE.
  - discriminate.
  - simpl. lia.
  - Forall_literal; reflexivity.
  - apply (bool_decide_unpack _). vm_compute. exact I.
Defined.

(** ** A word listed twice *)

Lemma same_feedback_self (t : list ascii) :
  same_feedback [t; t] t t = [t; t].
Proof.
  unfold same_feedback. apply filter_all.
  by intros x [->|[->|?%elem_of_nil]%elem_of_cons]%elem_of_cons.
Qed.

Lemma guess_greedy_word_twice (t : list ascii) :
  guess_greedy [t; t] [t; t] = Ok (None, expected_size 4 2).
Proof.
  assert (Forall (λ w : list ascii, length w = length t) [t; t]) as Hlen
    by by Forall_literal.
  assert (score [t; t] t = 4) as Hscore.
  { unfold score. simpl. by rewrite same_feedback_self. }
  unfold guess_greedy. rewrite (guess_loop_early_exit (length t)) by done.
  rewrite !(guess_loop_naive_unfold (length t)) by done.
  rewrite Hscore. simpl. done.
Qed.

(** X24: A dictionary that lists a word twice defeats [main] on this word: the
    two copies are never told apart, [guess_greedy] finds no guess below its
    initial bound and returns [None], and the second round ends on the
    [TypeError] of iterating over [None]. *)
Theorem main_word_listed_twice (t : list ascii) (argv : list (list ascii))
    (lines : list (list ascii)) :
  argv !! 1 = Some t →
  main [t; t] argv (World lines [])
  = (World lines
       [guess_line (Some t) heuristic_initial_guess;
        possibilities_lines 2 [t; t];
        guess_line None (guesser_message (expected_size 4 2))],
     Raises TypeError).
Proof.
  intros Hargv. unfold main.
  rewrite decide_True by (by apply lookup_lt_Some in Hargv).
  unfold index. rewrite Hargv.
  rewrite (then_call_Ok _ t) by done.
  unfold loop. rewrite (then_call_Ok _ t).
  2:{ unfold initial_guess. simpl. by rewrite decide_False by lia. }
  rewrite loop_rounds_S, then_print.
  change (known_word_feedback t (Some t)) with (call (give_feedback t t)).
  rewrite (then_call_Ok _ _ _ _ (give_feedback_closed t t)).
  assert (prune [t; t] t (feedback_of t t) = Ok [t; t]) as Hprune.
  { unfold prune. rewrite prune_fuel_filter;
      [|lia|by rewrite length_feedback_of; lia|by Forall_literal
       |apply feedback_of_values].
    f_equal. apply filter_all.
    by intros x [->|[->|?%elem_of_nil]%elem_of_cons]%elem_of_cons. }
  unfold prune_guess. rewrite (then_call_Ok _ _ _ _ Hprune).
  rewrite decide_False, decide_False by (simpl; lia).
  rewrite then_print.
  rewrite (then_call_Ok _ _ _ _ (guess_greedy_word_twice t)).
  rewrite loop_rounds_S, then_print. done.
Qed.

Lemma main_word_listed_twice_witness :
  main [str "EX"; str "EX"] [str "wordle.py"; str "EX"] (World [] [])
  = (World []
       [guess_line (Some (str "EX")) heuristic_initial_guess;
        possibilities_lines 2 [str "EX"; str "EX"];
        guess_line None (guesser_message (expected_size 4 2))],
     Raises TypeError).
Proof. apply main_word_listed_twice. reflexivity. Defined.

(** ** The table of letters *)

(** X19: The counter that [loop] builds maps a letter to the number of words
    that contain it, a word with the letter repeated counting once and a
    letter of no word counting zero. *)
Theorem letter_counts_words (words : list (list ascii)) (c : ascii) :
  letter_counts words !!! c = length (filter (λ w : list ascii, c ∈ w) words).
Proof. apply letter_counts_containing. Qed.

(** X20: The coverage of a word depends on which letters it has, not on how
    often it has them or where. *)
Theorem coverage_same_letters (words : list (list ascii))
    (w1 w2 : list ascii) :
  (∀ c, c ∈ w1 ↔ c ∈ w2) →
  coverage words w1 = coverage words w2.
Proof.
  intros Hsame. unfold coverage.
  replace (set w2) with (set w1); [done|].
  apply set_eq. intros c. unfold set. by rewrite !elem_of_list_to_set.
Qed.

Lemma coverage_same_letters_witness :
  coverage [str "AABC"; str "ABCD"; str "DCBA"] (str "AABC")
  = coverage [str "AABC"; str "ABCD"; str "DCBA"] (str "CBA").
Proof.
  apply coverage_same_letters. intros c. unfold str. simpl.
  rewrite !elem_of_cons, !elem_of_nil. tauto.
Defined.

(** ** A feedback longer than the guess *)

Lemma take_cut {A : Type} (s : list A) (n i : nat) :
  i < n → take (pred n) (cut s i) = cut (take n s) i.
Proof.
  intros Hi. apply list_eq. intros j.
  rewrite lookup_take, !cut_lookup, !lookup_take.
  repeat case_decide; (done || lia).
Qed.

Lemma prune_fuel_take fuel words guess feedback feedback' :
  take (length guess) feedback = take (length guess) feedback' →
  prune_fuel fuel words guess feedback = prune_fuel fuel words guess feedback'.
Proof.
  revert words guess feedback feedback'.
  induction fuel as [|fuel IH]; intros words guess feedback feedback' Htake;
    [done|].
  assert (zip guess feedback = zip guess feedback') as Hzip.
  { rewrite <- (zip_with_take_r' pair (length guess) guess feedback),
      <- (zip_with_take_r' pair (length guess) guess feedback') by lia.
    by rewrite Htake. }
  simpl.
  destruct (first_split (λ p : ascii * ascii, p.2 = HERE) (zip guess feedback))
    as [Hno|(ps1 & [letter r] & ps2 & Hz & Hno & Hr)].
  - rewrite prune_here_loop_no_here by done.
    rewrite <- Hzip, prune_here_loop_no_here by done. by rewrite Hzip.
  - simpl in Hr. subst r. rewrite <- Hzip, Hz.
    rewrite !prune_here_loop_here by done. simpl.
    apply zip_split_lookup in Hz as [Hg _]. apply lookup_lt_Some in Hg.
    destruct (filter_result _ words); simpl; [|done..].
    rewrite (IH _ _ _ (cut feedback' (length ps1))); [done|].
    rewrite length_cut, !take_cut by done. by rewrite Htake.
Qed.

(** X13: [prune] reads of the feedback the values that face a letter of the
    guess: what a feedback holds beyond the length of the guess is
    ignored. *)
Theorem prune_ignores_long_feedback (words : list (list ascii))
    (guess feedback : list ascii) :
  prune words guess feedback
  = prune words guess (take (length guess) feedback).
Proof. apply prune_fuel_take. by rewrite take_take, Nat.min_id. Qed.
